(** * term-ui: the canvas renderer of [src/drawer.js]

    A shallow embedding of the [renderer] class: the segmentation and
    wrapping of an entry ([parse]), the log cache and its render window
    ([emit], [renderByTop], [clear]), the composition pipeline ([render])
    and the cursor getters.

    Conventions of the model.
    - JS numbers are exact rationals ([Q]); rounding of IEEE doubles is not
      modelled.  [Math.floor] and [Math.ceil] are [Qfloor] and [Qceiling].
    - A JS array that may hold [undefined] (a hole read back, or the result
      of spreading a sparse array) is a [list (option _)].
    - Arrays are objects: every line group carries the address [gid] it was
      allocated at, and [===] / [indexOf] compare addresses.
    - The browser (text metrics, the DOM parser behind [innerHTML], the
      script-stripping regular expression) and the host options are the
      fields of [Env].  The entry validator is an external package; the
      type [Entry] holds exactly the entries it accepts.
    - A method is a function from the renderer to a [Run]: the renderer
      after the call, the canvas calls and host events it made, and how it
      ended.  A thrown exception keeps the mutations made before it. *)

From Stdlib Require Import QArith Qround ZArith Lia Lqa Bool Ascii String.
From stdpp Require Import base list.

Local Open Scope Z_scope.
Local Open Scope nat_scope.

(** ** Numbers *)

(** [x < y] on JS numbers. *)
Definition Qlt_bool (x y : Q) : bool := negb (Qle_bool y x).

(** Modelled from the spec: [clamp] of [src/utils], which is not part of the
    sources at hand.  The renderer only calls [clamp(x, 0, Infinity)]; the
    spec says the value is "clamped to >= 0". *)
Definition clamp0 (x : Q) : Q := if Qlt_bool x 0 then 0%Q else x.

(** ** Strings *)

Definition LF : ascii := "010"%char.
Definition CR : ascii := "013"%char.

(** [text.split(/\r?\n/)]. *)
Fixpoint split_lines (s : string) : list string :=
  match s with
  | EmptyString => [EmptyString]
  | String c rest =>
      let keep :=
        match split_lines rest with
        | l :: ls => String c l :: ls
        | [] => [String c EmptyString]
        end in
      if Ascii.eqb c LF then EmptyString :: split_lines rest
      else if Ascii.eqb c CR then
        match rest with
        | String c2 rest2 =>
            if Ascii.eqb c2 LF then EmptyString :: split_lines rest2 else keep
        | EmptyString => keep
        end
      else keep
  end.

(** [[...word]]: the characters of a word, each as a string of its own. *)
Fixpoint letters (word : string) : list string :=
  match word with
  | EmptyString => []
  | String c rest => String c EmptyString :: letters rest
  end.

Definition str_empty (s : string) : bool :=
  match s with EmptyString => true | _ => false end.

(** ** Arrays *)

(** [a.slice(start, end)] with JS's treatment of negative and
    out-of-range indices. *)
Definition rel_index (len : nat) (i : Z) : nat :=
  if (i <? 0)%Z then Z.to_nat (Z.max (Z.of_nat len + i) 0)
  else Z.to_nat (Z.min i (Z.of_nat len)).

Definition slice {A} (a : list A) (start stop : Z) : list A :=
  let k := rel_index (length a) start in
  let final := rel_index (length a) stop in
  take (final - k) (drop k a).

(** [a.slice(start)]. *)
Definition slice_from {A} (a : list A) (start : Z) : list A :=
  drop (rel_index (length a) start) a.

(** [a.pop()], for its effect on [a]. *)
Definition pop {A} (a : list A) : list A := removelast a.

(** [a[i] = v]: an index past the end extends the array with holes. *)
Definition assign {A} (a : list (option A)) (i : nat) (v : A) : list (option A) :=
  if i <? length a then <[i := Some v]> a
  else a ++ replicate (i - length a) None ++ [Some v].

(** ** Data model *)

Inductive EntryType := INPUT | OUTPUT.

Definition EntryType_eqb (a b : EntryType) : bool :=
  match a, b with
  | INPUT, INPUT | OUTPUT, OUTPUT => true
  | _, _ => false
  end.

(** The argument of [emit]; [replace] may be absent. *)
Record Entry := {
  type : EntryType;
  text : string;
  replace : option bool;
}.

(** An attribute read with [getAttribute]: [None] is [null]. *)
Definition attr := option string.

(** JS truthiness of an attribute value. *)
Definition truthy (a : attr) : bool :=
  match a with
  | Some s => negb (str_empty s)
  | None => false
  end.

(** A child of the scratch element: a text node has no [getAttribute]. *)
Inductive Node :=
| TextNode (content : string)
| ElementNode (content : string) (color background : attr).

Definition textContent (n : Node) : string :=
  match n with TextNode s | ElementNode s _ _ => s end.

(** [child.getAttribute ? child.getAttribute('color') : '']. *)
Definition node_color (n : Node) : attr :=
  match n with TextNode _ => Some EmptyString | ElementNode _ c _ => c end.

Definition node_background (n : Node) : attr :=
  match n with TextNode _ => Some EmptyString | ElementNode _ _ b => b end.

(** A [log]: the entry's fields spread, then the layout fields. *)
Record Segment := {
  log_type : EntryType;
  log_replace : option bool;
  width : Q;
  left : Q;
  log_text : string;
  color : attr;
  background : attr;
}.

(** One row of the terminal: an array of segments, with its address. *)
Record LineGroup := {
  gid : nat;
  logs : list Segment;
}.

(** What the environment supplies: host options, canvas size, and the
    browser functions [parse] calls. *)
Record Env := {
  pixelRatio : Q;
  optFontSize : Q;
  prefix : string;
  title : string;
  fontColor : string;
  backgroundColor : string;
  canvasWidth : Q;
  canvasHeight : Q;
  measureText : string -> Q;
  escape : string -> string;
  stripScript : string -> string;
  childNodes : string -> list Node;
}.

(** ** The constructor's layout constants *)

Section Layout.
Variable E : Env.
Local Open Scope Q_scope.

Definition contentPadding (i : nat) : Q :=
  nth i (map (fun item => item * pixelRatio E) [45; 15; 15; 15]) 0.

Definition contentHeight : Q :=
  canvasHeight E - contentPadding 0 - contentPadding 2.

Definition contentWidth : Q :=
  canvasWidth E - contentPadding 1 - contentPadding 3.

Definition logGap : Q := 10 * pixelRatio E.
Definition fontSize : Q := optFontSize E * pixelRatio E.
Definition btnSize : Q := 6 * pixelRatio E.
Definition cursorSize : Q := 5 * pixelRatio E.

Definition maxLength : Z := Qfloor (contentHeight / (fontSize + logGap)).
End Layout.

(** ** Segmentation: [parse] *)

(** [parse]'s local array [result] may have holes. *)
Abbreviation Result := (list (option (list Segment))).

(** [if (result[index]) result[index].push(log); else result[index] = [log];] *)
Definition add_log (result : Result) (index : nat) (log : Segment) : Result :=
  match result !! index with
  | Some (Some group) => <[index := Some (group ++ [log])]> result
  | _ => assign result index [log]
  end.

(** The variables of the loops of [parse]. *)
Record Cursor := {
  c_result : Result;
  c_index : nat;
  c_left : Q;
}.

(** The variables the character loop adds. *)
Record Wrap := {
  textTmp : string;
  isNewLine : bool;
  w_at : Cursor;
}.

Section Parse.
Variable E : Env.
Local Open Scope Q_scope.

(** [{ ...data, width, left, text, color, background }] *)
Definition mkLog (data : Entry) (w l : Q) (t : string) (c b : attr) : Segment :=
  {| log_type := type data; log_replace := replace data;
     width := w; left := l; log_text := t; color := c; background := b |}.

(** One turn of the loop over [letters]. *)
Definition letter_step (data : Entry) (lastLeft : Q) (c b : attr)
    (st : Wrap) (letter : string) : Wrap :=
  let cur := w_at st in
  let letterSize := measureText E letter in
  let nextLetterWidth := c_left cur + letterSize in
  if Qlt_bool nextLetterWidth (contentWidth E) then
    {| textTmp := String.append (textTmp st) letter;
       isNewLine := isNewLine st;
       w_at := {| c_result := c_result cur; c_index := c_index cur;
                  c_left := nextLetterWidth |} |}
  else
    let log := mkLog data (measureText E (textTmp st))
                 (if isNewLine st then contentPadding E 3 else lastLeft)
                 (textTmp st) c b in
    {| textTmp := letter;
       isNewLine := true;
       w_at := {| c_result := add_log (c_result cur) (c_index cur) log;
                  c_index := S (c_index cur);
                  c_left := contentPadding E 3 + letterSize |} |}.

(** The word does not fit as a whole: wrap it character by character. *)
Definition wrap_word (data : Entry) (cur : Cursor) (word : string)
    (c b : attr) : Cursor :=
  let st := fold_left (letter_step data (c_left cur) c b) (letters word)
              {| textTmp := EmptyString; isNewLine := false; w_at := cur |} in
  let log := mkLog data (measureText E (textTmp st)) (contentPadding E 3)
               (textTmp st) c b in
  {| c_result := add_log (c_result (w_at st)) (c_index (w_at st)) log;
     c_index := c_index (w_at st);
     c_left := c_left (w_at st) |}.

(** One turn of the loop over the child nodes of a line. *)
Definition child_step (data : Entry) (cur : Cursor) (child : Node) : Cursor :=
  let word := textContent child in
  let wordSize := measureText E word in
  let c := node_color child in
  let b := node_background child in
  let nextWordWidth := c_left cur + wordSize in
  if Qlt_bool (contentWidth E) nextWordWidth then
    wrap_word data cur word c b
  else
    {| c_result := add_log (c_result cur) (c_index cur)
                     (mkLog data wordSize (c_left cur) word c b);
       c_index := c_index cur;
       c_left := nextWordWidth |}.

(** One turn of the loop over [lines]. *)
Definition line_step (data : Entry) (cur : Cursor) (line : string) : Cursor :=
  let cur' := fold_left (child_step data) (childNodes E (stripScript E line)) cur in
  {| c_result := c_result cur'; c_index := S (c_index cur');
     c_left := contentPadding E 3 |}.

(** The entry as [parse] leaves it: [data.text = prefix + escape(data.text)]
    for an input entry. *)
Definition parse_data (data : Entry) : Entry :=
  match type data with
  | INPUT => {| type := type data;
                text := String.append (prefix E) (escape E (text data));
                replace := replace data |}
  | OUTPUT => data
  end.

Definition parse_start : Cursor :=
  {| c_result := []; c_index := 0%nat; c_left := contentPadding E 3 |}.

(** [parse(data)]: the entry after the call, and the array returned. *)
Definition parse (data : Entry) : Entry * Result :=
  let data' := parse_data data in
  let lines := split_lines (text data') in
  (data', c_result (fold_left (line_step data') lines parse_start)).
End Parse.

(** ** The renderer *)

(** The mutable fields of a [renderer], with the host's focus flag
    ([term.isFocus]) and the next free array address. *)
Record Renderer := {
  cacheLogs : list (option LineGroup);
  renderLogs : list (option LineGroup);
  scrollHeight : option Q;
  scrollTop : option Q;
  cursor : bool;
  isFocus : bool;
  nextId : nat;
}.

(** Calls on the 2d context and events sent to the host, in order. *)
Inductive Effect :=
| FillRect (fillStyle : string) (x y w h : Q)
| FillText (fillStyle : string) (t : string) (x y : Q)
| FillArc (fillStyle : string) (x y radius : Q)
| EmitSize (header content footer : Q)
| EmitCursor (l t : Q)
| EmitScroll (height top : Q).

Inductive Outcome := Returned | TypeError.

(** The result of running a method. *)
Record Run := {
  this : Renderer;
  trace : list Effect;
  outcome : Outcome;
}.

Definition Method := Renderer -> Run.

Definition skip : Method :=
  fun r => {| this := r; trace := []; outcome := Returned |}.

Definition draw (out : list Effect) : Method :=
  fun r => {| this := r; trace := out; outcome := Returned |}.

Definition throw : Method :=
  fun r => {| this := r; trace := []; outcome := TypeError |}.

Definition modify (f : Renderer -> Renderer) : Method :=
  fun r => {| this := f r; trace := []; outcome := Returned |}.

(** Sequencing: an exception skips what follows. *)
Definition andThen (m k : Method) : Method :=
  fun r =>
    let a := m r in
    match outcome a with
    | Returned =>
        let b := k (this a) in
        {| this := this b; trace := trace a ++ trace b; outcome := outcome b |}
    | TypeError => a
    end.

Declare Scope method_scope.
Delimit Scope method_scope with method.
Bind Scope method_scope with Method.
Notation "m ;; k" := (andThen m k)
  (at level 100, k at level 200, right associativity) : method_scope.

Definition set_cacheLogs (v : list (option LineGroup)) (r : Renderer) : Renderer :=
  {| cacheLogs := v; renderLogs := renderLogs r;
     scrollHeight := scrollHeight r; scrollTop := scrollTop r;
     cursor := cursor r; isFocus := isFocus r; nextId := nextId r |}.

Definition set_renderLogs (v : list (option LineGroup)) (r : Renderer) : Renderer :=
  {| cacheLogs := cacheLogs r; renderLogs := v;
     scrollHeight := scrollHeight r; scrollTop := scrollTop r;
     cursor := cursor r; isFocus := isFocus r; nextId := nextId r |}.

Definition set_scroll (h t : Q) (r : Renderer) : Renderer :=
  {| cacheLogs := cacheLogs r; renderLogs := renderLogs r;
     scrollHeight := Some h; scrollTop := Some t;
     cursor := cursor r; isFocus := isFocus r; nextId := nextId r |}.

Definition set_cursor (v : bool) (r : Renderer) : Renderer :=
  {| cacheLogs := cacheLogs r; renderLogs := renderLogs r;
     scrollHeight := scrollHeight r; scrollTop := scrollTop r;
     cursor := v; isFocus := isFocus r; nextId := nextId r |}.

Definition set_nextId (v : nat) (r : Renderer) : Renderer :=
  {| cacheLogs := cacheLogs r; renderLogs := renderLogs r;
     scrollHeight := scrollHeight r; scrollTop := scrollTop r;
     cursor := cursor r; isFocus := isFocus r; nextId := v |}.

(** A reference to a segment object: its array and its position there. *)
Definition Ref := (nat * nat)%type.

(** [logs && logs[logs.length - 1]] for the last element [logs] of [a]. *)
Definition lastLog (a : list (option LineGroup)) : option (Ref * Segment) :=
  match last a with
  | Some (Some g) =>
      match last (logs g) with
      | Some s => Some ((gid g, Nat.pred (length (logs g))), s)
      | None => None
      end
  | _ => None
  end.

(** [x === y] on the values [lastLog] returns. *)
Definition same_log (x y : option (Ref * Segment)) : bool :=
  match x, y with
  | Some ((g1, i1), _), Some ((g2, i2), _) => Nat.eqb g1 g2 && Nat.eqb i1 i2
  | None, None => true
  | _, _ => false
  end.

(** [x === y] on the elements of the cache. *)
Definition same_group (x y : option LineGroup) : bool :=
  match x, y with
  | Some g1, Some g2 => Nat.eqb (gid g1) (gid g2)
  | None, None => true
  | _, _ => false
  end.

(** [a.indexOf(x)]. *)
Fixpoint indexOf_from (a : list (option LineGroup)) (x : option LineGroup)
    (i : Z) : Z :=
  match a with
  | [] => (-1)%Z
  | y :: a' => if same_group y x then i else indexOf_from a' x (i + 1)%Z
  end.

Definition indexOf (a : list (option LineGroup)) (x : option LineGroup) : Z :=
  indexOf_from a x 0%Z.

(** The addresses [parse]'s arrays get when [emit] receives them. *)
Definition allocate (base : nat) (result : Result) : list (option LineGroup) :=
  imap (fun i og => option_map (fun g => {| gid := base + i; logs := g |}) og)
       result.

Section Methods.
Variable E : Env.
Local Open Scope Q_scope.
Local Open Scope method_scope.

Definition lastCacheLog (r : Renderer) := lastLog (cacheLogs r).
Definition lastRenderLog (r : Renderer) := lastLog (renderLogs r).

Definition cacheEditable (r : Renderer) : bool :=
  isFocus r &&
  match lastCacheLog r with
  | Some (_, s) => EntryType_eqb (log_type s) INPUT
  | None => false
  end.

Definition renderEditable (r : Renderer) : bool :=
  cacheEditable r && same_log (lastCacheLog r) (lastRenderLog r).

(** The vertical offset of row [i]. *)
Definition rowTop (i : Z) : Q :=
  contentPadding E 0 + (fontSize E + logGap E) * inject_Z i.

Definition cursorPos (r : Renderer) : Q * Q :=
  if renderEditable r then
    match lastRenderLog r with
    | Some (_, s) =>
        (left s + width s + pixelRatio E * 4,
         rowTop (Z.of_nat (length (renderLogs r)) - 1))
    | None => (0, 0)
    end
  else (0, 0).

Definition renderBackground : Method :=
  draw [FillRect (backgroundColor E) 0 0 (canvasWidth E) (canvasHeight E)].

Definition btnColor : list string := ["#FF5F56"; "#FFBD2E"; "#27C93F"]%string.

Definition renderTopbar : Method :=
  let w := measureText E (title E) in
  draw (FillText (fontColor E) (title E)
          (canvasWidth E / 2 - w / 2) (contentPadding E 1 - btnSize E / 2)
        :: imap (fun index item =>
                   FillArc item
                     (contentPadding E 3 + btnSize E
                      + inject_Z (Z.of_nat index) * btnSize E * (36 # 10))
                     (contentPadding E 1 + btnSize E) (btnSize E))
                btnColor).

(** The body of the inner loop of [renderContent]. *)
Definition draw_log (i : nat) (log : Segment) : list Effect :=
  let top := rowTop (Z.of_nat i) in
  (if truthy (background log) then
     [FillRect (default EmptyString (background log))
        (left log) top (width log) (fontSize E)]
   else []) ++
  [FillText (if truthy (color log) then default EmptyString (color log)
             else fontColor E)
     (log_text log) (left log) top].

(** The outer loop: reading [logs.length] of [undefined] throws. *)
Fixpoint draw_rows (rows : list (option LineGroup)) (i : nat) : Method :=
  match rows with
  | [] => skip
  | None :: _ => throw
  | Some g :: rest => draw (flat_map (draw_log i) (logs g)) ;; draw_rows rest (S i)
  end.

(** [this.renderLogs[this.renderLogs.length - 1]] *)
Definition lastlogs (r : Renderer) : option LineGroup :=
  match last (renderLogs r) with
  | Some og => og
  | None => None
  end.

(** The [if (this.renderEditable)] block of [renderContent]. *)
Definition notify : Method :=
  fun r =>
    if renderEditable r then
      let '(l, t) := cursorPos r in
      let h := inject_Z (Z.of_nat (length (cacheLogs r)))
               * (fontSize E + logGap E) / pixelRatio E in
      let lastIndex := indexOf (cacheLogs r) (lastlogs r) in
      let s := (inject_Z (lastIndex + 1) * (fontSize E + logGap E)
                - contentHeight E) / pixelRatio E in
      {| this := set_scroll h s r;
         trace := [EmitCursor (l / pixelRatio E) (t / pixelRatio E);
                   EmitScroll (clamp0 h) (clamp0 s)];
         outcome := Returned |}
    else skip r.

Definition renderContent : Method :=
  (fun r => draw_rows (renderLogs r) 0 r) ;; notify.

Definition render : Method :=
  renderBackground ;; renderTopbar ;; renderContent.

Definition renderByTop (top : Q) : Method :=
  let startIndex := Qceiling (top * pixelRatio E / (fontSize E + logGap E)) in
  modify (fun r => set_renderLogs
                     (slice (cacheLogs r) startIndex (startIndex + maxLength E)%Z) r) ;;
  render.

Definition renderCursor : Method :=
  fun r =>
    let '(l, t) := cursorPos r in
    if renderEditable r && negb (Qeq_bool l 0) && negb (Qeq_bool t 0) then
      draw [FillRect (if cursor r then "#FFF"%string else backgroundColor E)
              l t (cursorSize E) (fontSize E)] r
    else skip r.

(** One firing of the blink timer. *)
Definition blink : Method :=
  modify (fun r => set_cursor (negb (cursor r)) r) ;; renderCursor.

(** [this.cacheLogs.push(...logs)]: the holes of [logs] arrive as
    [undefined]. *)
Definition push_logs (result : Result) (r : Renderer) : Renderer :=
  set_nextId (nextId r + length result)
    (set_cacheLogs (cacheLogs r ++ allocate (nextId r) result) r).

Definition emit_this (data : Entry) : Method :=
  (match replace data with
   | Some true => modify (fun r => set_cacheLogs (pop (cacheLogs r)) r)
   | _ => skip
   end) ;;
  modify (push_logs (snd (parse E data))) ;;
  modify (fun r => set_renderLogs (slice_from (cacheLogs r) (- maxLength E)%Z) r) ;;
  render.

(** [emit(data)]: the caller's entry after the call, and the run. *)
Definition emit (data : Entry) (r : Renderer) : Entry * Run :=
  (fst (parse E data), emit_this data r).

Definition clear : Method :=
  modify (set_cacheLogs []) ;; modify (set_renderLogs []) ;; render.

(** The constructor, for a host whose focus flag is [focus]. *)
Definition construct (focus : bool) : Run :=
  (draw [EmitSize (contentPadding E 0 / pixelRatio E)
           (contentHeight E / pixelRatio E)
           (contentPadding E 2 / pixelRatio E)] ;;
   render ;;
   modify (set_cursor false))
    {| cacheLogs := []; renderLogs := []; scrollHeight := None;
       scrollTop := None; cursor := false; isFocus := focus; nextId := 0%nat |}.
End Methods.

(** ** A concrete environment

    Used to run the model on examples: a fixed-pitch font, and the DOM
    parser restricted to what it does on a line without markup (no [<], no
    [&]): one text node, or no node at all for the empty line. *)

Definition plainNodes (line : string) : list Node :=
  if str_empty line then [] else [TextNode line].

Definition fixedPitch (w : Q) (s : string) : Q :=
  (w * inject_Z (Z.of_nat (String.length s)))%Q.

(** Modelled from the spec: [escape] of [src/utils], which is not part of
    the sources at hand ("any characters with special display meaning are
    escaped before layout"). *)
Fixpoint escapeHtml (s : string) : string :=
  match s with
  | EmptyString => EmptyString
  | String c rest =>
      let tail := escapeHtml rest in
      if Ascii.eqb c "&" then String.append "&amp;" tail
      else if Ascii.eqb c "<" then String.append "&lt;" tail
      else if Ascii.eqb c ">" then String.append "&gt;" tail
      else if Ascii.eqb c "034" then String.append "&quot;" tail
      else if Ascii.eqb c "'" then String.append "&#39;" tail
      else String c tail
  end.

(** A canvas [w] wide and [h] high at pixel ratio 1, 13px font, characters
    [pitch] wide. *)
Definition demoEnv (w h pitch : Q) : Env :=
  {| pixelRatio := 1; optFontSize := 13; prefix := "$ "; title := "term";
     fontColor := "#b0b2b6"; backgroundColor := "#000";
     canvasWidth := w; canvasHeight := h;
     measureText := fixedPitch pitch;
     escape := escapeHtml;
     stripScript := fun line => line;
     childNodes := plainNodes |}.

(** A metric that is not additive: 10 per character and 1 more between
    two neighbours. *)
Definition kerned (s : string) : Q :=
  inject_Z (Z.of_nat (10 * String.length s + Nat.pred (String.length s))).

Definition kernedEnv : Env :=
  {| pixelRatio := 1; optFontSize := 13; prefix := "$ "; title := "term";
     fontColor := "#b0b2b6"; backgroundColor := "#000";
     canvasWidth := 130; canvasHeight := 106;
     measureText := kerned;
     escape := escapeHtml;
     stripScript := fun line => line;
     childNodes := plainNodes |}.

(** ** Vocabulary of the statements *)

(** The fields a drawing pass never writes. *)
Definition same_logs (r r' : Renderer) : Prop :=
  cacheLogs r' = cacheLogs r /\ renderLogs r' = renderLogs r /\
  isFocus r' = isFocus r /\ nextId r' = nextId r /\ cursor r' = cursor r.

(** The renderer [emit] hands to [render]. *)
Definition emit_pre (E : Env) (data : Entry) (r : Renderer) : Renderer :=
  let r1 := match replace data with
            | Some true => set_cacheLogs (pop (cacheLogs r)) r
            | _ => r
            end in
  let r2 := push_logs (snd (parse E data)) r1 in
  set_renderLogs (slice_from (cacheLogs r2) (- maxLength E)%Z) r2.

(** The entry [data] with its [replace] flag set to [b]. *)
Definition with_replace (b : bool) (data : Entry) : Entry :=
  {| type := type data; text := text data; replace := Some b |}.

(** Two states of [parse]'s loops that agree on everything but the
    segments stored so far. *)
Definition same_shape (c1 c2 : Cursor) : Prop :=
  c_index c1 = c_index c2 /\ c_left c1 = c_left c2 /\
  length (c_result c1) = length (c_result c2).

Definition same_shape_wrap (s1 s2 : Wrap) : Prop :=
  textTmp s1 = textTmp s2 /\ isNewLine s1 = isNewLine s2 /\
  same_shape (w_at s1) (w_at s2).

Definition is_scroll (e : Effect) : bool :=
  match e with EmitScroll _ _ => true | _ => false end.

Definition is_cursor (e : Effect) : bool :=
  match e with EmitCursor _ _ => true | _ => false end.

(** A [scroll] event carries no negative number. *)
Definition scroll_nonneg (e : Effect) : Prop :=
  match e with
  | EmitScroll h t => (0 <= h)%Q /\ (0 <= t)%Q
  | _ => True
  end.

(** What a run tells the host about scrolling: every [scroll] event is
    clamped, and there is one exactly when the run returned with the
    cursor eligible. *)
Definition scroll_report (run : Run) : Prop :=
  Forall scroll_nonneg (trace run) /\
  (Exists (fun e => is_scroll e = true) (trace run) <->
   outcome run = Returned /\ renderEditable (this run) = true).

(** Every segment stored in [result] satisfies [P]. *)
Definition all_logs (P : Segment -> Prop) (result : Result) : Prop :=
  Forall (fun og => match og with Some g => Forall P g | None => True end) result.

(** What [parse] guarantees of the array it returns: its segments have the
    entry's type, no group in it is an empty array, and it does not end
    with a hole. *)
Definition well_formed_result (ty : EntryType) (result : Result) : Prop :=
  all_logs (fun s => log_type s = ty) result /\
  Forall (fun og => og <> Some []) result /\
  (result = [] \/ exists g, last result = Some (Some g)).

(** The line groups of [result]: its elements that are not holes. *)
Definition lineGroups (result : Result) : list (list Segment) := omap id result.

(** The child nodes [parse] walks for a raw line. *)
Definition tokens (E : Env) (line : string) : list Node :=
  childNodes E (stripScript E line).

(** A raw line whose scratch element has no child node. *)
Definition blank (E : Env) (line : string) : bool :=
  match tokens E line with [] => true | _ => false end.

(** The raw lines [parse] splits the entry into. *)
Definition rawLines (E : Env) (data : Entry) : list string :=
  split_lines (text (parse_data E data)).

(** 1 when the next segment will open a new group at [c_index]. *)
Definition fresh (cur : Cursor) : nat :=
  if length (c_result cur) <=? c_index cur then 1 else 0.

(** The segments of [result], row after row. *)
Definition segments (result : Result) : list Segment := concat (lineGroups result).

Definition join (ss : list string) : string :=
  fold_right String.append EmptyString ss.

(** The text [parse] lays out: the segments' texts, in order. *)
Definition texts (result : Result) : string :=
  join (map log_text (segments result)).

(** The text [parse] was given: the text of every child node of every raw
    line, in order. *)
Definition tokenTexts (E : Env) (data : Entry) : string :=
  join (map textContent (flat_map (tokens E) (rawLines E data))).

(** A character that does not fit in the content width. *)
Definition wide (E : Env) (letter : string) : Prop :=
  (contentWidth E < measureText E letter)%Q.

(** A text holding a wide character holds nothing else. *)
Definition wide_alone (E : Env) (t : string) : Prop :=
  forall letter, letter ∈ letters t -> wide E letter -> t = letter.

(** The character loop keeps a wide character alone in [textTmp], and once
    it is there nothing more fits. *)
Definition wide_inv (E : Env) (st : Wrap) : Prop :=
  all_logs (fun s => wide_alone E (log_text s)) (c_result (w_at st)) /\
  (0 <= c_left (w_at st))%Q /\
  wide_alone E (textTmp st) /\
  (forall letter, letter ∈ letters (textTmp st) -> wide E letter ->
     (contentWidth E <= c_left (w_at st))%Q).

(** A segment that ends within the content width. *)
Definition fits (E : Env) (s : Segment) : Prop :=
  (left s + width s <= contentWidth E)%Q.

(** Every character of the entry fits when it opens a row. *)
Definition letters_fit (E : Env) (nodes : list Node) : Prop :=
  forall node letter,
    node ∈ nodes -> letter ∈ letters (textContent node) ->
    (contentPadding E 3 + measureText E letter <= contentWidth E)%Q.

(** The character loop, [pre] being the characters of the word read so
    far: the text being built starts at the offset its segment will get,
    ends at [left], and is all of [pre] until the first wrap. *)
Definition wrap_inv (E : Env) (lastLeft : Q) (pre : string) (st : Wrap) : Prop :=
  all_logs (fits E) (c_result (w_at st)) /\
  (c_left (w_at st) <= contentWidth E)%Q /\
  ((if isNewLine st then contentPadding E 3 else lastLeft)
   + measureText E (textTmp st) == c_left (w_at st))%Q /\
  (isNewLine st = false -> textTmp st = pre).

(** The index [renderByTop] starts its slice at. *)
Definition scrollIndex (E : Env) (top : Q) : Z :=
  Qceiling (top * pixelRatio E / (fontSize E + logGap E)).

(** What every drawing pass paints first: the background and the top bar. *)
Definition chrome (E : Env) (r : Renderer) : list Effect :=
  trace (renderBackground E r) ++ trace (renderTopbar E r).

(** A call on the 2d context, as opposed to an event sent to the host. *)
Definition is_draw (e : Effect) : bool :=
  match e with
  | FillRect _ _ _ _ _ | FillText _ _ _ _ | FillArc _ _ _ _ => true
  | _ => false
  end.

(** A segment that carries the fields spread from [data]. *)
Definition carries (data : Entry) (s : Segment) : Prop :=
  log_type s = type data /\ log_replace s = replace data.

(** A segment that starts at or after the left inset and is not of negative
    width. *)
Definition inside_inset (E : Env) (s : Segment) : Prop :=
  (contentPadding E 3 <= left s)%Q /\ (0 <= width s)%Q.

(** Every row of [result] begins at the left inset. *)
Definition starts_at_inset (E : Env) (result : Result) : Prop :=
  Forall (fun og => match og with
                    | Some (s :: _) => left s = contentPadding E 3
                    | _ => True
                    end) result.

(** The loops of [parse], for the rows: [anchor] is the offset of the
    segment that would open the row at [index] if none has yet. *)
Definition row_inv (E : Env) (ty : EntryType) (anchor : Q)
    (result : Result) (index : nat) : Prop :=
  length result <= S index /\
  well_formed_result ty result /\
  starts_at_inset E result /\
  (length result <= index -> anchor = contentPadding E 3).

(** The texts a trace writes on the canvas, with their positions. *)
Definition drawn_texts (t : list Effect) : list (string * Q * Q) :=
  omap (fun e => match e with
                 | FillText _ s x y => Some (s, x, y)
                 | _ => None
                 end) t.

(** What row [i] of the window should show. *)
Definition row_texts (E : Env) (i : nat) (g : LineGroup) : list (string * Q * Q) :=
  map (fun s => (log_text s, left s, rowTop E (Z.of_nat i))) (logs g).

(** The positions a trace reports to the host with a [cursor] event. *)
Definition cursor_reports (t : list Effect) : list (Q * Q) :=
  omap (fun e => match e with EmitCursor l t => Some (l, t) | _ => None end) t.

(** The values a trace reports to the host with a [scroll] event. *)
Definition scroll_reports (t : list Effect) : list (Q * Q) :=
  omap (fun e => match e with EmitScroll h t => Some (h, t) | _ => None end) t.

(** No two rows of the cache are the same array. *)
Definition ids_unique (a : list (option LineGroup)) : Prop :=
  forall i j x y,
    a !! i = Some (Some x) -> a !! j = Some (Some y) -> gid x = gid y -> i = j.

(** Every row of the cache was allocated before address [n]. *)
Definition ids_below (n : nat) (a : list (option LineGroup)) : Prop :=
  forall i x, a !! i = Some (Some x) -> gid x < n.

(** The addresses of a renderer are consistent: this holds after the
    constructor and every method keeps it. *)
Definition ids_fresh (r : Renderer) : Prop :=
  ids_unique (cacheLogs r) /\ ids_below (nextId r) (cacheLogs r).

(** * Properties *)

(** ** Generic facts *)

Lemma Qlt_bool_iff (x y : Q) : Qlt_bool x y = true <-> (x < y)%Q.
Proof.
  unfold Qlt_bool. rewrite negb_true_iff. split.
  - intros H. apply Qnot_le_lt. intros Hle.
    apply Qle_bool_iff in Hle. congruence.
  - intros H. destruct (Qle_bool y x) eqn:E; [|reflexivity].
    apply Qle_bool_iff in E. exfalso. eapply Qlt_not_le; eauto.
Qed.

Lemma Qlt_bool_false (x y : Q) : Qlt_bool x y = false <-> (y <= x)%Q.
Proof.
  unfold Qlt_bool. rewrite negb_false_iff. apply Qle_bool_iff.
Qed.

Lemma fold_left_invariant {A B} (P : A -> Prop) (f : A -> B -> A) (l : list B) :
  forall a, P a -> (forall a b, b ∈ l -> P a -> P (f a b)) -> P (fold_left f l a).
Proof.
  induction l as [|b l IH]; intros a Ha Hstep; simpl; [exact Ha|].
  apply IH.
  - apply Hstep; [left | exact Ha].
  - intros a' b' Hin. apply Hstep. now right.
Qed.

Lemma split_lines_empty : split_lines EmptyString = [EmptyString].
Proof. reflexivity. Qed.

Lemma split_lines_nonempty (s : string) : split_lines s <> [].
Proof.
  induction s as [|c rest IH]; simpl; [discriminate|].
  destruct (split_lines rest) eqn:Hrest; [contradiction|].
  destruct (Ascii.eqb c LF); [discriminate|].
  destruct (Ascii.eqb c CR); [|discriminate].
  destruct rest as [|c2 rest2]; [discriminate|].
  destruct (Ascii.eqb c2 LF); discriminate.
Qed.

(** ** The model at work *)

Example split_lines_crlf :
  split_lines (String "a" (String CR (String LF (String "b" (String LF EmptyString)))))
  = ["a"; "b"; EmptyString]%string.
Proof. reflexivity. Qed.

Example split_lines_lone_cr :
  split_lines (String "a" (String CR (String CR (String LF "b"))))
  = [String "a" (String CR EmptyString); "b"%string].
Proof. reflexivity. Qed.

Example slice_counts_from_the_end :
  slice [1; 2; 3; 4; 5] (-2) 10 = [4; 5] /\
  slice [1; 2; 3; 4; 5] 3 (3 + 10) = [4; 5] /\
  slice [1; 2; 3; 4; 5] 7 (7 + 10) = [] /\
  slice_from [1; 2; 3; 4; 5] (-2) = [4; 5] /\
  slice_from [1; 2; 3; 4; 5] (-0) = [1; 2; 3; 4; 5].
Proof. repeat split. Qed.

(** Twelve characters of width 10 at inset 15 in a content width of 120:
    ten fit before the wrap. *)
Example wrap_twelve_characters :
  map (map (fun s => (log_text s, left s, width s)))
      (lineGroups (snd (parse (demoEnv 150 106 10)
                          {| type := OUTPUT; text := "abcdefghijkl";
                             replace := None |})))
  = [[("abcdefghij"%string, 15%Q, 100%Q)]; [("kl"%string, 15%Q, 20%Q)]].
Proof. vm_compute. reflexivity. Qed.

(** A growing input line re-rendered with [replace]: one row, the last
    text, behind the prompt. *)
Example growing_input_line :
  let E := demoEnv 130 106 10 in
  let r1 := this (snd (emit E {| type := INPUT; text := "h"; replace := Some false |}
                         (this (construct E true)))) in
  let r2 := this (snd (emit E {| type := INPUT; text := "he"; replace := Some true |}
                         r1)) in
  let r3 := this (snd (emit E {| type := INPUT; text := "hel"; replace := Some true |}
                         r2)) in
  map (option_map (fun g => map log_text (logs g))) (cacheLogs r3)
  = [Some ["$ hel"%string]].
Proof. vm_compute. reflexivity. Qed.

(** ** What [render] leaves alone *)

Section Frame.
Variable E : Env.

Lemma same_logs_refl r : same_logs r r.
Proof. repeat split. Qed.

Lemma same_logs_trans r1 r2 r3 :
  same_logs r1 r2 -> same_logs r2 r3 -> same_logs r1 r3.
Proof. unfold same_logs. intuition congruence. Qed.

Lemma andThen_same_logs (m k : Method) :
  (forall r, same_logs r (this (m r))) ->
  (forall r, same_logs r (this (k r))) ->
  forall r, same_logs r (this (andThen m k r)).
Proof.
  intros Hm Hk r. unfold andThen.
  destruct (outcome (m r)); simpl; [|apply Hm].
  eapply same_logs_trans; [apply Hm | apply Hk].
Qed.

Lemma draw_rows_this rows : forall i r, this (draw_rows E rows i r) = r.
Proof.
  induction rows as [|[g|] rows IH]; intros i r; simpl; try reflexivity.
  unfold andThen; simpl. apply IH.
Qed.

Lemma notify_same_logs r : same_logs r (this (notify E r)).
Proof.
  unfold notify. destruct (renderEditable r); [|apply same_logs_refl].
  destruct (cursorPos E r). simpl. repeat split.
Qed.

Lemma renderContent_same_logs r : same_logs r (this (renderContent E r)).
Proof.
  unfold renderContent. apply andThen_same_logs.
  - intros r'. rewrite draw_rows_this. apply same_logs_refl.
  - apply notify_same_logs.
Qed.

Lemma render_same_logs r : same_logs r (this (render E r)).
Proof.
  unfold render.
  apply andThen_same_logs; [intros; apply same_logs_refl|].
  apply andThen_same_logs; [intros; apply same_logs_refl|].
  apply renderContent_same_logs.
Qed.

Lemma andThen_modify (f : Renderer -> Renderer) (k : Method) r :
  this (andThen (modify f) k r) = this (k (f r)) /\
  trace (andThen (modify f) k r) = trace (k (f r)) /\
  outcome (andThen (modify f) k r) = outcome (k (f r)).
Proof. unfold andThen, modify; simpl. repeat split. Qed.

Lemma andThen_skip (k : Method) r :
  this (andThen skip k r) = this (k r) /\
  trace (andThen skip k r) = trace (k r) /\
  outcome (andThen skip k r) = outcome (k r).
Proof. unfold andThen, skip; simpl. repeat split. Qed.

Lemma emit_this_run data r :
  this (emit_this E data r) = this (render E (emit_pre E data r)) /\
  trace (emit_this E data r) = trace (render E (emit_pre E data r)) /\
  outcome (emit_this E data r) = outcome (render E (emit_pre E data r)).
Proof.
  unfold emit_this, emit_pre.
  destruct (replace data) as [[|]|]; unfold andThen, modify, skip; simpl;
    repeat split.
Qed.

(** The cache and the window after [emit], whatever the outcome. *)
Lemma emit_this_cacheLogs data r :
  cacheLogs (this (emit_this E data r)) =
  (match replace data with
   | Some true => pop (cacheLogs r)
   | _ => cacheLogs r
   end) ++ allocate (nextId r) (snd (parse E data)).
Proof.
  destruct (emit_this_run data r) as (-> & _).
  destruct (render_same_logs (emit_pre E data r)) as (-> & _).
  unfold emit_pre. destruct (replace data) as [[|]|]; reflexivity.
Qed.

Lemma emit_this_renderLogs data r :
  renderLogs (this (emit_this E data r)) =
  slice_from (cacheLogs (this (emit_this E data r))) (- maxLength E)%Z.
Proof.
  destruct (emit_this_run data r) as (-> & _).
  destruct (render_same_logs (emit_pre E data r)) as (-> & -> & _).
  reflexivity.
Qed.

Lemma emit_this_isFocus data r :
  isFocus (this (emit_this E data r)) = isFocus r.
Proof.
  destruct (emit_this_run data r) as (-> & _).
  destruct (render_same_logs (emit_pre E data r)) as (_ & _ & -> & _).
  unfold emit_pre. destruct (replace data) as [[|]|]; reflexivity.
Qed.

Lemma length_allocate base (result : Result) :
  length (allocate base result) = length result.
Proof. unfold allocate. apply length_imap. Qed.
End Frame.

(** ** The caller's entry and the empty output *)

Section EntryFacts.
Variable E : Env.

Lemma parse_output_empty (data : Entry) :
  type data = OUTPUT -> text data = EmptyString ->
  childNodes E (stripScript E EmptyString) = [] ->
  snd (parse E data) = [].
Proof.
  intros Hty Htx Hdom. unfold parse, parse_data. rewrite Hty, Htx.
  simpl. unfold line_step. rewrite Hdom. reflexivity.
Qed.

(** C10: appending an Output entry with empty text, [replace] unset or
    false, leaves the log cache exactly as it was (the scratch element of
    an empty line has no child node, so [parse] returns no line group). *)
Theorem C10_empty_output_keeps_cache (data : Entry) (r : Renderer) :
  type data = OUTPUT ->
  text data = EmptyString ->
  replace data = None \/ replace data = Some false ->
  childNodes E (stripScript E EmptyString) = [] ->
  snd (parse E data) = [] /\
  cacheLogs (this (snd (emit E data r))) = cacheLogs r.
Proof.
  intros Hty Htx Hrep Hdom.
  pose proof (parse_output_empty data Hty Htx Hdom) as Hparse.
  split; [exact Hparse|].
  unfold emit; simpl. rewrite emit_this_cacheLogs, Hparse.
  destruct Hrep as [-> | ->]; simpl; apply app_nil_r.
Qed.

(** C9, amended: [emit] leaves the entry's [type] and [replace] as they
    were; the [text] of an Output entry is unchanged, the [text] of an Input
    entry is overwritten with the prompt prefix followed by the escaped
    text. *)
Theorem C9_entry_after_emit (data : Entry) (r : Renderer) :
  type (fst (emit E data r)) = type data /\
  replace (fst (emit E data r)) = replace data /\
  text (fst (emit E data r)) =
    match type data with
    | INPUT => String.append (prefix E) (escape E (text data))
    | OUTPUT => text data
    end.
Proof.
  unfold emit, parse, parse_data; simpl.
  destruct (type data) eqn:Hty; simpl; rewrite ?Hty; repeat split.
Qed.
End EntryFacts.

Lemma C10_empty_output_keeps_cache_witness :
  let E := demoEnv 130 106 10 in
  let data := {| type := OUTPUT; text := EmptyString; replace := Some false |} in
  let r := this (construct E true) in
  snd (parse E data) = [] /\
  cacheLogs (this (snd (emit E data r))) = cacheLogs r.
Proof.
  intros E data r.
  apply (C10_empty_output_keeps_cache E data r);
    [reflexivity | reflexivity | right; reflexivity | reflexivity].
Defined.

(** C9 as stated fails: an Input entry comes back with its text rewritten. *)
Lemma C9_input_text_rewritten :
  let E := demoEnv 130 106 10 in
  let data := {| type := INPUT; text := "x"; replace := None |} in
  text (fst (emit E data (this (construct E true)))) = "$ x"%string /\
  fst (emit E data (this (construct E true))) <> data.
Proof.
  split; [reflexivity | discriminate].
Qed.

(** C6: an Output entry whose text has a blank line before a non-blank one
    makes [emit] throw: [parse] leaves a hole for the blank line, the
    spread stores [undefined] in the cache, and [renderContent] reads
    [logs.length] of it. *)
Example C6_blank_line_throws :
  let E := demoEnv 130 106 10 in
  let data := {| type := OUTPUT; text := String LF "b"; replace := None |} in
  let run := snd (emit E data (this (construct E true))) in
  outcome (construct E true) = Returned /\
  snd (parse E data) <> [] /\
  head (cacheLogs (this run)) = Some None /\
  outcome run = TypeError.
Proof.
  vm_compute. repeat split; discriminate.
Qed.

(** ** The shape of [parse]'s result does not depend on the spread fields *)

Lemma fold_left_related {A B} (R : A -> A -> Prop) (f g : A -> B -> A) (l : list B) :
  (forall a a' b, R a a' -> R (f a b) (g a' b)) ->
  forall a a', R a a' -> R (fold_left f l a) (fold_left g l a').
Proof.
  intros Hstep. induction l as [|b l IH]; intros a a' HR; simpl; [exact HR|].
  apply IH, Hstep, HR.
Qed.

Lemma length_assign {A} (a : list (option A)) (i : nat) (v : A) :
  length (assign a i v) = Nat.max (length a) (S i).
Proof.
  unfold assign. destruct (Nat.ltb_spec i (length a)).
  - rewrite length_insert. lia.
  - rewrite !length_app, length_replicate. simpl. lia.
Qed.

Lemma length_add_log (result : Result) (index : nat) (log : Segment) :
  length (add_log result index log) = Nat.max (length result) (S index).
Proof.
  unfold add_log.
  destruct (result !! index) as [[group|]|] eqn:Hlk;
    try apply length_assign.
  rewrite length_insert. apply lookup_lt_Some in Hlk. lia.
Qed.

Section Shape.
Variable E : Env.
Variables d1 d2 : Entry.

Lemma letter_step_shape lastLeft c b s1 s2 letter :
  same_shape_wrap s1 s2 ->
  same_shape_wrap (letter_step E d1 lastLeft c b s1 letter)
                  (letter_step E d2 lastLeft c b s2 letter).
Proof.
  intros (Ht & Hn & Hi & Hl & Hlen). unfold letter_step.
  rewrite Hl.
  destruct (Qlt_bool _ _); repeat split; simpl; try congruence.
  rewrite !length_add_log. congruence.
Qed.

Lemma wrap_word_shape c1 c2 word c b :
  same_shape c1 c2 ->
  same_shape (wrap_word E d1 c1 word c b) (wrap_word E d2 c2 word c b).
Proof.
  intros Hs. unfold wrap_word.
  assert (Hl : c_left c1 = c_left c2) by apply Hs. rewrite Hl.
  destruct (fold_left_related same_shape_wrap
              (letter_step E d1 (c_left c2) c b)
              (letter_step E d2 (c_left c2) c b) (letters word)
              (letter_step_shape (c_left c2) c b)
              {| textTmp := EmptyString; isNewLine := false; w_at := c1 |}
              {| textTmp := EmptyString; isNewLine := false; w_at := c2 |})
    as (Ht & Hn & Hi & Hl' & Hlen); [repeat split; apply Hs|].
  repeat split; simpl; try congruence.
  rewrite !length_add_log. congruence.
Qed.

Lemma child_step_shape c1 c2 child :
  same_shape c1 c2 ->
  same_shape (child_step E d1 c1 child) (child_step E d2 c2 child).
Proof.
  intros Hs. unfold child_step.
  assert (Hl : c_left c1 = c_left c2) by apply Hs. rewrite Hl.
  destruct (Qlt_bool _ _); [now apply wrap_word_shape|].
  destruct Hs as (Hi & _ & Hlen).
  repeat split; simpl; try congruence.
  rewrite !length_add_log. congruence.
Qed.

Lemma line_step_shape c1 c2 line :
  same_shape c1 c2 ->
  same_shape (line_step E d1 c1 line) (line_step E d2 c2 line).
Proof.
  intros Hs. unfold line_step.
  pose proof (fold_left_related same_shape (child_step E d1) (child_step E d2)
                (childNodes E (stripScript E line))
                (fun a a' x => child_step_shape a a' x) c1 c2 Hs)
    as (Hi & Hl & Hlen).
  repeat split; simpl; congruence.
Qed.

End Shape.

Lemma parse_length_same (E : Env) (d1 d2 : Entry) :
  type d1 = type d2 -> text d1 = text d2 ->
  length (snd (parse E d1)) = length (snd (parse E d2)).
Proof.
  intros Hty Htx. unfold parse; simpl.
  assert (Hlines : text (parse_data E d1) = text (parse_data E d2)).
  { unfold parse_data. rewrite Hty, Htx. destruct (type d2); simpl; congruence. }
  rewrite Hlines.
  apply (fold_left_related same_shape (line_step E (parse_data E d1))
           (line_step E (parse_data E d2))).
  - intros a a' x. apply line_step_shape.
  - repeat split.
Qed.

(** ** Replacing the last line group *)

Lemma length_pop {A} (a : list A) : length (pop a) = Nat.pred (length a).
Proof.
  unfold pop. induction a as [|x [|y a] IH]; simpl in *; try reflexivity.
  now rewrite IH.
Qed.

(** C2, amended: after appending [e1], appending [e2] with [replace: true]
    pops the last element of the cache and then pushes the new groups, which
    leaves exactly one line group fewer in the cache than appending it with
    [replace: false], provided the cache is not empty once [e1] is in;
    when it is empty (an empty starting cache and an [e1] that yields no
    line group) [pop] removes nothing and both caches have the same
    length. *)
Theorem C2_replace_pops_one (E : Env) (r : Renderer) (e1 e2 : Entry) :
  let r1 := this (snd (emit E e1 r)) in
  let replaced := this (snd (emit E (with_replace true e2) r1)) in
  let appended := this (snd (emit E (with_replace false e2) r1)) in
  cacheLogs replaced
    = pop (cacheLogs r1)
      ++ allocate (nextId r1) (snd (parse E (with_replace true e2))) /\
  cacheLogs appended
    = cacheLogs r1
      ++ allocate (nextId r1) (snd (parse E (with_replace false e2))) /\
  length (cacheLogs replaced) + (if cacheLogs r1 is [] then 0 else 1)
  = length (cacheLogs appended).
Proof.
  intros r1 replaced appended. subst replaced appended.
  unfold emit; cbn [snd]. rewrite !emit_this_cacheLogs. cbn [replace with_replace].
  split; [reflexivity|]. split; [reflexivity|].
  rewrite !length_app, !length_allocate, length_pop.
  rewrite (parse_length_same E (with_replace true e2) (with_replace false e2))
    by reflexivity.
  destruct (cacheLogs r1); simpl; lia.
Qed.

(** C2 as stated fails on an empty cache: with nothing to pop, replacing and
    appending give caches of the same length. *)
Lemma C2_replace_on_empty_cache :
  let E := demoEnv 130 106 10 in
  let e1 := {| type := OUTPUT; text := EmptyString; replace := None |} in
  let e2 := {| type := OUTPUT; text := "a"; replace := None |} in
  let r1 := this (snd (emit E e1 (this (construct E true)))) in
  length (cacheLogs (this (snd (emit E (with_replace true e2) r1)))) = 1 /\
  length (cacheLogs (this (snd (emit E (with_replace false e2) r1)))) = 1 /\
  length (cacheLogs (this (snd (emit E (with_replace true e2) r1)))) + 1
  <> length (cacheLogs (this (snd (emit E (with_replace false e2) r1)))).
Proof.
  vm_compute. repeat split. discriminate.
Qed.

(** ** When a drawing pass returns *)

Section Outcome.
Variable E : Env.

Lemma draw_rows_outcome rows : forall i r,
  outcome (draw_rows E rows i r) = Returned <-> Forall is_Some rows.
Proof.
  induction rows as [|[g|] rows IH]; intros i r; simpl.
  - split; [constructor | reflexivity].
  - unfold andThen; simpl. rewrite IH. split.
    + intros H. constructor; [eexists; reflexivity | exact H].
    + intros H. now inversion H.
  - split; [discriminate|]. intros H. inversion H as [|? ? [x Hx] ?].
    discriminate.
Qed.

Lemma notify_outcome r : outcome (notify E r) = Returned.
Proof.
  unfold notify. destruct (renderEditable r); [|reflexivity].
  destruct (cursorPos E r); reflexivity.
Qed.

Lemma renderContent_outcome r :
  outcome (renderContent E r) = Returned <-> Forall is_Some (renderLogs r).
Proof.
  unfold renderContent, andThen.
  destruct (outcome (draw_rows E (renderLogs r) 0 r)) eqn:Hrows; simpl.
  - rewrite notify_outcome. apply draw_rows_outcome in Hrows. tauto.
  - rewrite Hrows. rewrite <- (draw_rows_outcome (renderLogs r) 0 r), Hrows.
    tauto.
Qed.

Lemma render_outcome r :
  outcome (render E r) = Returned <-> Forall is_Some (renderLogs r).
Proof.
  rewrite <- renderContent_outcome.
  unfold render, andThen, renderBackground, renderTopbar, draw; simpl.
  destruct (outcome (renderContent E r)); simpl; tauto.
Qed.
Lemma clear_returns r : outcome (clear E r) = Returned.
Proof.
  unfold clear.
  destruct (andThen_modify (set_cacheLogs []) (andThen (modify (set_renderLogs [])) (render E)) r)
    as (_ & _ & ->).
  destruct (andThen_modify (set_renderLogs []) (render E) (set_cacheLogs [] r))
    as (_ & _ & ->).
  apply render_outcome. constructor.
Qed.

Lemma emit_outcome data r :
  outcome (emit_this E data r) = Returned <->
  Forall is_Some (renderLogs (this (emit_this E data r))).
Proof.
  destruct (emit_this_run E data r) as (-> & _ & ->).
  destruct (render_same_logs E (emit_pre E data r)) as (_ & -> & _).
  apply render_outcome.
Qed.
End Outcome.

(** ** The window derived from a scroll offset *)



Lemma slice_nonneg {A} (a : list A) (start m : Z) :
  (0 <= start)%Z -> (0 <= m)%Z ->
  slice a start (start + m) = take (Z.to_nat m) (drop (Z.to_nat start) a).
Proof.
  intros Hs Hm. unfold slice, rel_index.
  destruct (Z.ltb_spec start 0), (Z.ltb_spec (start + m) 0); try lia.
  destruct (Z.le_gt_cases (Z.of_nat (length a)) start) as [Hout|Hin].
  - rewrite !drop_ge by lia. now rewrite !take_nil.
  - replace (Z.to_nat (Z.min start (Z.of_nat (length a)))) with (Z.to_nat start) by lia.
    destruct (Z.le_gt_cases (start + m) (Z.of_nat (length a))) as [Hfit|Hover].
    + f_equal. lia.
    + rewrite !take_ge; [reflexivity | rewrite length_drop; lia
                        | rewrite length_drop; lia].
Qed.



Lemma renderByTop_run (E : Env) (top : Q) (r : Renderer) :
  let r' := set_renderLogs
              (slice (cacheLogs r)
                 (Qceiling (top * pixelRatio E / (fontSize E + logGap E)))
                 (Qceiling (top * pixelRatio E / (fontSize E + logGap E))
                  + maxLength E)) r in
  this (renderByTop E top r) = this (render E r') /\
  trace (renderByTop E top r) = trace (render E r') /\
  outcome (renderByTop E top r) = outcome (render E r').
Proof.
  exact (andThen_modify
           (fun r0 => set_renderLogs
              (slice (cacheLogs r0)
                 (Qceiling (top * pixelRatio E / (fontSize E + logGap E)))
                 (Qceiling (top * pixelRatio E / (fontSize E + logGap E))
                  + maxLength E)) r0)
           (render E) r).
Qed.



(** C3: a scroll request is not free of errors.  An Output entry with a
    blank line between two others is appended without error when the
    window, the last two rows, misses the [undefined] row the blank line
    left in the cache; scrolling to the negative offset -92 then takes
    [slice(-4, -2)], which holds that row, and [renderContent] throws on
    it; so does the in-range offset 23.  The window itself is the slice the
    claim describes. *)
Example C3_scroll_over_hole_throws :
  let E := demoEnv 130 106 10 in
  let data := {| type := OUTPUT;
                 text := String "a" (String LF (String LF (String "b"
                           (String LF (String "c" (String LF "d"))))));
                 replace := None |} in
  let appended := snd (emit E data (this (construct E true))) in
  let r := this appended in
  let rows := map (option_map (fun g => map log_text (logs g))) in
  outcome appended = Returned /\
  rows (cacheLogs r)
    = [Some ["a"]; None; Some ["b"]; Some ["c"]; Some ["d"]]%string /\
  rows (renderLogs (this (renderByTop E (-92 # 1) r)))
    = [None; Some ["b"%string]] /\
  renderLogs (this (renderByTop E (-92 # 1) r)) = slice (cacheLogs r) (-4) (-2) /\
  outcome (renderByTop E (-92 # 1) r) = TypeError /\
  outcome (renderByTop E 23 r) = TypeError.
Proof.
  vm_compute. repeat split.
Qed.

(** ** Scroll notifications *)

Lemma andThen_run (m k : Method) (r : Renderer) :
  outcome (m r) = Returned ->
  this (andThen m k r) = this (k (this (m r))) /\
  trace (andThen m k r) = trace (m r) ++ trace (k (this (m r))) /\
  outcome (andThen m k r) = outcome (k (this (m r))).
Proof. intros H. unfold andThen. rewrite H. repeat split. Qed.

Lemma andThen_thrown (m k : Method) (r : Renderer) :
  outcome (m r) = TypeError -> andThen m k r = m r.
Proof. intros H. unfold andThen. now rewrite H. Qed.

Lemma clamp0_nonneg (x : Q) : (0 <= clamp0 x)%Q.
Proof.
  unfold clamp0. destruct (Qlt_bool x 0) eqn:Hx; [apply Qle_refl|].
  now apply Qlt_bool_false in Hx.
Qed.

Lemma renderEditable_same_logs (r r' : Renderer) :
  same_logs r r' -> renderEditable r' = renderEditable r.
Proof.
  intros (Hc & Hr & Hf & _).
  unfold renderEditable, cacheEditable, lastCacheLog, lastRenderLog.
  now rewrite Hc, Hr, Hf.
Qed.

Section Scroll.
Variable E : Env.

(** The content loops only draw. *)
Lemma draw_rows_trace rows : forall i r,
  Forall (fun e => is_scroll e = false /\ is_cursor e = false)
         (trace (draw_rows E rows i r)).
Proof.
  induction rows as [|[g|] rows IH]; intros i r; simpl; try constructor.
  unfold andThen; simpl. apply Forall_app. split; [|apply IH].
  apply Forall_forall. intros e He. apply list_elem_of_In, in_flat_map in He.
  destruct He as (log & _ & He). unfold draw_log in He.
  apply in_app_or in He. destruct He as [He|He].
  - destruct (truthy (background log)); simpl in He; [|contradiction].
    destruct He as [<-|[]]. split; reflexivity.
  - simpl in He. destruct He as [<-|[]]. split; reflexivity.
Qed.

Lemma notify_trace r :
  trace (notify E r) =
  if renderEditable r then
    [EmitCursor (fst (cursorPos E r) / pixelRatio E)
                (snd (cursorPos E r) / pixelRatio E);
     EmitScroll (clamp0 (inject_Z (Z.of_nat (length (cacheLogs r)))
                         * (fontSize E + logGap E) / pixelRatio E))
                (clamp0 ((inject_Z (indexOf (cacheLogs r) (lastlogs r) + 1)
                          * (fontSize E + logGap E) - contentHeight E)
                         / pixelRatio E))]
  else [].
Proof.
  unfold notify. destruct (renderEditable r); [|reflexivity].
  destruct (cursorPos E r); reflexivity.
Qed.

(** The trace of [render]: background, top bar, rows, then what [notify]
    sends if the rows were all drawn. *)
Lemma render_trace r :
  exists chrome,
    Forall (fun e => is_scroll e = false /\ is_cursor e = false) chrome /\
    trace (render E r) =
      chrome ++ if outcome (render E r) is Returned then trace (notify E r) else [].
Proof.
  pose proof (draw_rows_trace (renderLogs r) 0 r) as Hrows.
  pose proof (draw_rows_this E (renderLogs r) 0 r) as Hthis.
  exists ([FillRect (backgroundColor E) 0 0 (canvasWidth E) (canvasHeight E)]
          ++ trace (renderTopbar E r) ++ trace (draw_rows E (renderLogs r) 0 r)).
  split.
  - apply Forall_app. split; [repeat constructor|].
    apply Forall_app. split; [|exact Hrows].
    simpl. repeat constructor.
  - unfold render, renderContent, andThen, renderBackground, draw; simpl.
    destruct (outcome (draw_rows E (renderLogs r) 0 r)) eqn:Hout; simpl.
    + rewrite notify_outcome, Hthis. reflexivity.
    + rewrite Hout. first [reflexivity | now rewrite app_nil_r].
Qed.

Lemma render_scroll_report r : scroll_report (render E r).
Proof.
  destruct (render_trace r) as (chrome & Hchrome & Htrace).
  unfold scroll_report.
  rewrite (renderEditable_same_logs _ _ (render_same_logs E r)).
  rewrite Htrace, notify_trace.
  assert (Hnone : ~ Exists (fun e => is_scroll e = true) chrome).
  { rewrite Exists_exists. intros (e & He & Hs).
    rewrite Forall_forall in Hchrome. destruct (Hchrome e He). congruence. }
  assert (Hok : Forall scroll_nonneg chrome).
  { eapply Forall_impl; [exact Hchrome|]. intros [] [Hs _]; simpl; try exact I.
    discriminate. }
  destruct (outcome (render E r)), (renderEditable r); split;
    rewrite ?app_nil_r; try exact Hok.
  - apply Forall_app. split; [exact Hok|].
    repeat constructor; apply clamp0_nonneg.
  - split; [tauto|]. intros _. apply Exists_app. right.
    apply Exists_cons_tl, Exists_cons_hd. reflexivity.
  - split; [tauto | intros [_ H]; discriminate].
  - split; [tauto | intros [H _]; discriminate].
  - split; [tauto | intros [H _]; discriminate].
Qed.

Lemma scroll_report_run (run run' : Run) :
  this run = this run' -> trace run = trace run' -> outcome run = outcome run' ->
  scroll_report run' -> scroll_report run.
Proof. unfold scroll_report. intros -> -> ->. tauto. Qed.

(** C7, amended: during [emit] and during [renderByTop], every [scroll]
    notification carries a [scrollHeight] and a [scrollTop] clamped to be
    >= 0, and one is sent exactly when the content was drawn to the end and
    the cursor is eligible ([renderEditable]); re-deriving the window
    without an eligible cursor sends none. *)
Theorem C7_scroll_when_editable (data : Entry) (top : Q) (r : Renderer) :
  scroll_report (snd (emit E data r)) /\ scroll_report (renderByTop E top r).
Proof.
  split.
  - destruct (emit_this_run E data r) as (Ht & Htr & Ho).
    exact (scroll_report_run _ _ Ht Htr Ho (render_scroll_report _)).
  - destruct (renderByTop_run E top r) as (Ht & Htr & Ho).
    exact (scroll_report_run _ _ Ht Htr Ho (render_scroll_report _)).
Qed.
End Scroll.

(** C7 as stated fails: appending an Output entry re-derives the window and
    sends no [scroll] notification. *)
Lemma C7_output_sends_no_scroll :
  let E := demoEnv 130 106 10 in
  let data := {| type := OUTPUT; text := "a"; replace := None |} in
  let run := snd (emit E data (this (construct E true))) in
  outcome run = Returned /\
  renderLogs (this run) <> renderLogs (this (construct E true)) /\
  filter (fun e => is_scroll e = true) (trace run) = [].
Proof.
  vm_compute. repeat split. discriminate.
Qed.

(** ** The array [parse] returns *)

Lemma add_log_cases (result : Result) (index : nat) (log : Segment) :
  (exists group, result !! index = Some (Some group) /\
     add_log result index log = <[index := Some (group ++ [log])]> result) \/
  (index < length result /\ result !! index = Some None /\
     add_log result index log = <[index := Some [log]]> result) \/
  (length result <= index /\
     add_log result index log
     = result ++ replicate (index - length result) None ++ [Some [log]]).
Proof.
  unfold add_log, assign.
  destruct (result !! index) as [[group|]|] eqn:Hlk.
  - left. eauto.
  - right. left. apply lookup_lt_Some in Hlk as Hlt.
    destruct (Nat.ltb_spec index (length result)); [auto | lia].
  - right. right. apply lookup_ge_None in Hlk.
    destruct (Nat.ltb_spec index (length result)); [lia | auto].
Qed.

Lemma add_log_all_logs (P : Segment -> Prop) result index log :
  all_logs P result -> P log -> all_logs P (add_log result index log).
Proof.
  intros Hall Hlog. unfold all_logs in *.
  destruct (add_log_cases result index log)
    as [(group & Hlk & ->) | [(_ & _ & ->) | (_ & ->)]].
  - apply Forall_insert; [exact Hall|].
    apply Forall_app. split; [|now repeat constructor].
    exact (Forall_lookup_1 _ _ _ _ Hall Hlk).
  - apply Forall_insert; [exact Hall | now repeat constructor].
  - apply Forall_app. split; [exact Hall|].
    apply Forall_app. split; [now apply Forall_replicate|].
    now repeat constructor.
Qed.

Lemma last_insert_defined {A} (l : list (option A)) (i : nat) (x : A) :
  (exists g, last l = Some (Some g)) ->
  exists g, last (<[i := Some x]> l) = Some (Some g).
Proof.
  intros (g & Hg). rewrite last_lookup, length_insert, list_lookup_insert.
  destruct (decide _); [eauto|]. rewrite <- last_lookup. eauto.
Qed.

Lemma add_log_well_formed ty result index log :
  log_type log = ty ->
  well_formed_result ty result ->
  well_formed_result ty (add_log result index log).
Proof.
  intros Hty (Hall & Hne & Hlast).
  split; [now apply add_log_all_logs|].
  destruct (add_log_cases result index log)
    as [(group & Hlk & ->) | [(Hlt & _ & ->) | (_ & ->)]].
  - split.
    + apply Forall_insert; [exact Hne|]. intros [=Heq].
      now destruct group.
    + right. apply last_insert_defined.
      destruct Hlast as [-> | Hl]; [discriminate | exact Hl].
  - split.
    + apply Forall_insert; [exact Hne | discriminate].
    + right. apply last_insert_defined.
      destruct Hlast as [-> | Hl]; [simpl in Hlt; lia | exact Hl].
  - split.
    + apply Forall_app. split; [exact Hne|].
      apply Forall_app. split; [apply Forall_replicate; discriminate|].
      repeat constructor. discriminate.
    + right. exists [log]. now rewrite !app_assoc, last_snoc.
Qed.

Section ParseInduction.
Variable E : Env.
Variable data : Entry.
Variable P : Result -> Prop.
Hypothesis P_add : forall result index w l t c b,
  P result -> P (add_log result index (mkLog data w l t c b)).

Lemma letter_step_result lastLeft c b st letter :
  P (c_result (w_at st)) ->
  P (c_result (w_at (letter_step E data lastLeft c b st letter))).
Proof.
  intros H. unfold letter_step. destruct (Qlt_bool _ _); simpl; auto.
Qed.

Lemma wrap_word_result cur word c b :
  P (c_result cur) -> P (c_result (wrap_word E data cur word c b)).
Proof.
  intros H. unfold wrap_word; simpl. apply P_add.
  apply (fold_left_invariant (fun st => P (c_result (w_at st)))); [exact H|].
  intros st letter _. apply letter_step_result.
Qed.

Lemma child_step_result cur child :
  P (c_result cur) -> P (c_result (child_step E data cur child)).
Proof.
  intros H. unfold child_step.
  destruct (Qlt_bool _ _); [now apply wrap_word_result|]. simpl. now apply P_add.
Qed.

Lemma line_step_result cur line :
  P (c_result cur) -> P (c_result (line_step E data cur line)).
Proof.
  intros H. unfold line_step; simpl.
  apply (fold_left_invariant (fun cur => P (c_result cur))); [exact H|].
  intros a child _. apply child_step_result.
Qed.

Lemma lines_result lines cur :
  P (c_result cur) -> P (c_result (fold_left (line_step E data) lines cur)).
Proof.
  intros H.
  apply (fold_left_invariant (fun cur => P (c_result cur))); [exact H|].
  intros a line _. apply line_step_result.
Qed.
End ParseInduction.

Lemma parse_well_formed (E : Env) (data : Entry) :
  well_formed_result (type data) (snd (parse E data)).
Proof.
  unfold parse; simpl.
  apply (lines_result E (parse_data E data)
           (well_formed_result (type data))).
  - intros result index w l t c b. apply add_log_well_formed.
    unfold parse_data. destruct (type data) eqn:Hty; simpl; congruence.
  - split; [constructor|]. split; [constructor | now left].
Qed.

(** ** Cursor eligibility after an append *)

Lemma last_allocate base (result : Result) g :
  last result = Some (Some g) ->
  last (allocate base result)
  = Some (Some {| gid := base + Nat.pred (length result); logs := g |}).
Proof.
  intros H. rewrite last_lookup in H. unfold allocate.
  rewrite last_lookup, length_imap, list_lookup_imap, H. reflexivity.
Qed.

Lemma lastLog_pushed ty cache base (result : Result) :
  result <> [] -> well_formed_result ty result ->
  exists ref s, lastLog (cache ++ allocate base result) = Some (ref, s) /\
                log_type s = ty.
Proof.
  intros Hne (Hall & Hgroups & [-> | (g & Hlast)]); [contradiction|].
  unfold lastLog. rewrite last_app, (last_allocate base result g Hlast). simpl.
  apply last_Some_elem_of in Hlast as Hin.
  rewrite Forall_forall in Hgroups. specialize (Hgroups _ Hin).
  unfold all_logs in Hall. rewrite Forall_forall in Hall.
  specialize (Hall _ Hin). simpl in Hall.
  destruct (last g) as [s|] eqn:Hs.
  - eexists _, s. split; [reflexivity|].
    apply last_Some_elem_of in Hs. rewrite Forall_forall in Hall. auto.
  - apply last_None in Hs. subst g. contradiction.
Qed.

Lemma emit_pre_cacheLogs (E : Env) data r :
  cacheLogs (emit_pre E data r) =
  (match replace data with
   | Some true => pop (cacheLogs r)
   | _ => cacheLogs r
   end) ++ allocate (nextId r) (snd (parse E data)).
Proof. unfold emit_pre. destruct (replace data) as [[|]|]; reflexivity. Qed.

(** C8, amended: after appending an Output entry for which [parse] returns
    at least one line group, the cursor is not eligible, whatever the
    focus: [cacheEditable] and [renderEditable] are false, the append sends
    no [cursor] event, [cursorPos] is the origin and [renderCursor] draws
    nothing. *)
Theorem C8_output_not_editable (E : Env) (data : Entry) (r : Renderer) :
  type data = OUTPUT ->
  snd (parse E data) <> [] ->
  let run := snd (emit E data r) in
  cacheEditable (this run) = false /\
  renderEditable (this run) = false /\
  Forall (fun e => is_cursor e = false) (trace run) /\
  cursorPos E (this run) = (0%Q, 0%Q) /\
  trace (renderCursor E (this run)) = [].
Proof.
  intros Hty Hne run.
  assert (Hpre : cacheEditable (emit_pre E data r) = false).
  { unfold cacheEditable, lastCacheLog. rewrite emit_pre_cacheLogs.
    destruct (lastLog_pushed (type data)
                (match replace data with
                 | Some true => pop (cacheLogs r)
                 | _ => cacheLogs r
                 end) (nextId r) (snd (parse E data)) Hne
                (parse_well_formed E data)) as (ref & s & -> & Hs).
    rewrite Hs, Hty. apply andb_false_r. }
  assert (Hpre' : renderEditable (emit_pre E data r) = false).
  { unfold renderEditable. now rewrite Hpre. }
  subst run. unfold emit; cbn [snd].
  destruct (emit_this_run E data r) as (Hthis & Htrace & _).
  pose proof (render_same_logs E (emit_pre E data r)) as Hsame.
  assert (Hce : cacheEditable (this (emit_this E data r)) = false).
  { rewrite Hthis. destruct Hsame as (Hc & _ & Hf & _).
    unfold cacheEditable, lastCacheLog in *. now rewrite Hc, Hf. }
  assert (Hre : renderEditable (this (emit_this E data r)) = false).
  { unfold renderEditable. now rewrite Hce. }
  repeat split; try assumption.
  - rewrite Htrace.
    destruct (render_trace E (emit_pre E data r)) as (chrome & Hchrome & ->).
    rewrite notify_trace, Hpre'.
    apply Forall_app. split.
    + eapply Forall_impl; [exact Hchrome|]. now intros e [_ H].
    + destruct (outcome _); constructor.
  - unfold cursorPos. now rewrite Hre.
  - unfold renderCursor, cursorPos. now rewrite Hre.
Qed.

Lemma C8_output_not_editable_witness :
  let E := demoEnv 130 106 10 in
  let data := {| type := OUTPUT; text := "a"; replace := None |} in
  let r := this (construct E true) in
  isFocus r = true /\ renderEditable (this (snd (emit E data r))) = false.
Proof.
  intros E data r. split; [reflexivity|].
  refine (proj1 (proj2 (C8_output_not_editable E data r _ _)));
    [reflexivity | vm_compute; discriminate].
Defined.

(** C8 as stated fails: an Output entry with empty text adds no line group,
    so the last cached segment is still the Input one and, with focus, the
    cursor stays eligible and its position is reported. *)
Lemma C8_empty_output_keeps_cursor :
  let E := demoEnv 130 106 10 in
  let typed := {| type := INPUT; text := "x"; replace := None |} in
  let data := {| type := OUTPUT; text := EmptyString; replace := None |} in
  let r := this (snd (emit E typed (this (construct E true)))) in
  let run := snd (emit E data r) in
  outcome run = Returned /\
  renderEditable (this run) = true /\
  filter (fun e => is_cursor e = true) (trace run) = [EmitCursor 49 45].
Proof.
  vm_compute. repeat split.
Qed.

(** ** Line groups per raw line *)

Lemma lineGroups_app (a b : Result) :
  lineGroups (a ++ b) = lineGroups a ++ lineGroups b.
Proof.
  unfold lineGroups. apply omap_app.
Qed.

Lemma lineGroups_holes n : lineGroups (replicate n None) = [].
Proof. induction n; simpl; auto. Qed.

Lemma lineGroups_insert (result : Result) (i : nat) (g : list Segment) :
  length (lineGroups result) <= length (lineGroups (<[i := Some g]> result)).
Proof.
  revert i. induction result as [|[g0|] result IH]; intros [|i]; simpl;
    try lia; try (specialize (IH i); unfold lineGroups in *; simpl in *; lia).
Qed.

Lemma lineGroups_add_log (result : Result) (index : nat) (log : Segment) :
  length result <= S index ->
  length (add_log result index log) = S index /\
  length (lineGroups result)
    + (if length result <=? index then 1 else 0)
  <= length (lineGroups (add_log result index log)).
Proof.
  intros Hlen. split; [rewrite length_add_log; lia|].
  destruct (add_log_cases result index log)
    as [(group & Hlk & ->) | [(Hlt & _ & ->) | (Hge & ->)]].
  - apply lookup_lt_Some in Hlk.
    destruct (Nat.leb_spec (length result) index); [lia|].
    pose proof (lineGroups_insert result index (group ++ [log])). lia.
  - destruct (Nat.leb_spec (length result) index); [lia|].
    pose proof (lineGroups_insert result index [log]). lia.
  - rewrite !lineGroups_app, lineGroups_holes, !length_app. simpl.
    destruct (Nat.leb_spec (length result) index); lia.
Qed.

Section Rows.
Variable E : Env.
Variable data : Entry.

(** Within the character loop: no group is lost, and a row that is still
    to be opened counts for one. *)
Lemma letter_step_rows lastLeft c b (n : nat) st letter :
  length (c_result (w_at st)) <= S (c_index (w_at st)) /\
    n <= length (lineGroups (c_result (w_at st))) + fresh (w_at st) ->
  let st' := letter_step E data lastLeft c b st letter in
  length (c_result (w_at st')) <= S (c_index (w_at st')) /\
    n <= length (lineGroups (c_result (w_at st'))) + fresh (w_at st').
Proof.
  intros (Hlen & Hn). unfold letter_step.
  destruct (Qlt_bool _ _); simpl; [split; assumption|].
  unfold fresh in *; simpl.
  match goal with
  | |- context [add_log ?res ?i ?log] =>
      destruct (lineGroups_add_log res i log Hlen) as (Hl & Hr)
  end.
  rewrite Hl. destruct (Nat.leb_spec (S (c_index (w_at st))) (S (c_index (w_at st))));
    [|lia].
  split; [lia|]. lia.
Qed.

Lemma wrap_word_rows cur word c b :
  length (c_result cur) <= S (c_index cur) ->
  let cur' := wrap_word E data cur word c b in
  length (c_result cur') = S (c_index cur') /\
  length (lineGroups (c_result cur)) + fresh cur
  <= length (lineGroups (c_result cur')).
Proof.
  intros Hlen. unfold wrap_word; simpl.
  match goal with
  | |- context [fold_left ?f ?l ?a] =>
      pose proof (fold_left_invariant
        (fun st => length (c_result (w_at st)) <= S (c_index (w_at st)) /\
                   length (lineGroups (c_result cur)) + fresh cur
                   <= length (lineGroups (c_result (w_at st))) + fresh (w_at st))
        f l a) as Hfold;
      set (st := fold_left f l a) in *
  end.
  destruct Hfold as (Hl & Hn).
  - simpl. split; [exact Hlen | lia].
  - intros a0 letter _ H. now apply letter_step_rows.
  - match goal with
    | |- context [add_log ?res ?i ?log] =>
        destruct (lineGroups_add_log res i log Hl) as (Hl' & Hr)
    end.
    split; [exact Hl'|]. unfold fresh in Hn at 2. lia.
Qed.

Lemma child_step_rows cur child :
  length (c_result cur) <= S (c_index cur) ->
  let cur' := child_step E data cur child in
  length (c_result cur') = S (c_index cur') /\
  length (lineGroups (c_result cur)) + fresh cur
  <= length (lineGroups (c_result cur')).
Proof.
  intros Hlen. unfold child_step.
  destruct (Qlt_bool _ _); [now apply wrap_word_rows|]. simpl.
  match goal with
  | |- context [add_log ?res ?i ?log] =>
      destruct (lineGroups_add_log res i log Hlen) as (Hl' & Hr)
  end.
  split; [exact Hl' | exact Hr].
Qed.

Lemma children_rows children : forall cur,
  length (c_result cur) <= S (c_index cur) ->
  let cur' := fold_left (child_step E data) children cur in
  length (c_result cur') <= S (c_index cur') /\
  length (lineGroups (c_result cur))
    + (if children is [] then 0 else fresh cur)
  <= length (lineGroups (c_result cur')).
Proof.
  induction children as [|child children IH]; intros cur Hlen; simpl.
  - split; [exact Hlen | lia].
  - destruct (child_step_rows cur child Hlen) as (Hl & Hr).
    destruct (IH (child_step E data cur child)) as (Hl' & Hr'); [lia|].
    split; [exact Hl'|]. destruct children; simpl in *; lia.
Qed.

Lemma line_step_rows cur line :
  length (c_result cur) <= c_index cur ->
  let cur' := line_step E data cur line in
  length (c_result cur') <= c_index cur' /\
  length (lineGroups (c_result cur)) + (if blank E line then 0 else 1)
  <= length (lineGroups (c_result cur')).
Proof.
  intros Hlen. unfold line_step, blank, tokens; simpl.
  destruct (children_rows (childNodes E (stripScript E line)) cur) as (Hl & Hr);
    [lia|].
  split; [lia|].
  destruct (childNodes E (stripScript E line)); [lia|].
  unfold fresh in Hr. destruct (Nat.leb_spec (length (c_result cur)) (c_index cur));
    lia.
Qed.

Lemma lines_rows lines : forall cur,
  length (c_result cur) <= c_index cur ->
  length (lineGroups (c_result cur))
    + length (List.filter (fun line => negb (blank E line)) lines)
  <= length (lineGroups (c_result (fold_left (line_step E data) lines cur))).
Proof.
  induction lines as [|line lines IH]; intros cur Hlen; simpl; [lia|].
  destruct (line_step_rows cur line Hlen) as (Hl & Hr).
  specialize (IH _ Hl).
  destruct (blank E line); simpl in *; lia.
Qed.
End Rows.

(** C4, amended: every raw line whose scratch element has at least one
    child node produces at least one line group, so [parse] returns at
    least as many line groups as the entry has such raw lines; a raw line
    without child nodes (a blank line, the empty text) produces none. *)
Theorem C4_groups_per_nonblank_line (E : Env) (data : Entry) :
  length (List.filter (fun line => negb (blank E line)) (rawLines E data))
    <= length (lineGroups (snd (parse E data))) /\
  forall cur line,
    blank E line = true ->
    c_result (line_step E (parse_data E data) cur line) = c_result cur.
Proof.
  split.
  - unfold parse, rawLines; simpl.
    apply (lines_rows E (parse_data E data) _ (parse_start E)). simpl. lia.
  - intros cur line Hblank. unfold line_step, blank, tokens in *.
    destruct (childNodes E (stripScript E line)); [reflexivity | discriminate].
Qed.

(** C4 as stated fails: the empty text is one raw line and yields no line
    group, and a trailing blank line yields none either. *)
Lemma C4_blank_lines_yield_nothing :
  let E := demoEnv 130 106 10 in
  let empty := {| type := OUTPUT; text := EmptyString; replace := None |} in
  let trailing := {| type := OUTPUT; text := String "a" (String LF EmptyString);
                     replace := None |} in
  length (rawLines E empty) = 1 /\ length (snd (parse E empty)) = 0 /\
  length (rawLines E trailing) = 2 /\ length (snd (parse E trailing)) = 1.
Proof.
  vm_compute. repeat split.
Qed.

Lemma C4_groups_per_nonblank_line_witness :
  let E := demoEnv 130 106 10 in
  let data := {| type := OUTPUT; text := String "a" (String LF EmptyString);
                 replace := None |} in
  1 <= length (lineGroups (snd (parse E data))).
Proof.
  intros E data. exact (proj1 (C4_groups_per_nonblank_line E data)).
Defined.

(** ** No character is dropped *)

Lemma append_empty_r (s : string) : String.append s EmptyString = s.
Proof. induction s as [|c s IH]; simpl; [reflexivity | now rewrite IH]. Qed.

Lemma append_assoc (s t u : string) :
  String.append (String.append s t) u = String.append s (String.append t u).
Proof. induction s as [|c s IH]; simpl; [reflexivity | now rewrite IH]. Qed.

Lemma join_app (a b : list string) :
  join (a ++ b) = String.append (join a) (join b).
Proof.
  induction a as [|s a IH]; simpl; [reflexivity|].
  now rewrite IH, append_assoc.
Qed.

Lemma join_letters (word : string) : join (letters word) = word.
Proof. induction word as [|c w IH]; simpl; [reflexivity | now rewrite IH]. Qed.

Lemma segments_app (a b : Result) : segments (a ++ b) = segments a ++ segments b.
Proof. unfold segments. now rewrite lineGroups_app, concat_app. Qed.

Lemma insert_at_last {A} (pre : list A) (x y : A) (i : nat) :
  i = length pre -> <[i := y]> (pre ++ [x]) = pre ++ [y].
Proof.
  intros ->. replace (length pre) with (length pre + 0) by lia.
  now rewrite insert_app_r.
Qed.

Lemma segments_add_log (result : Result) (index : nat) (log : Segment) :
  length result <= S index ->
  segments (add_log result index log) = segments result ++ [log].
Proof.
  intros Hlen.
  destruct (add_log_cases result index log)
    as [(group & Hlk & ->) | [(Hlt & Hlk & ->) | (Hge & ->)]].
  - apply lookup_lt_Some in Hlk as Hlt.
    destruct result as [|x pre _] using rev_ind; [simpl in Hlt; lia|].
    rewrite length_app in Hlen, Hlt; simpl in Hlen, Hlt.
    assert (Hi : index = length pre) by lia.
    rewrite (list_lookup_middle pre [] x index Hi) in Hlk.
    injection Hlk as ->.
    rewrite insert_at_last by exact Hi.
    rewrite !segments_app. unfold segments, lineGroups; simpl.
    now rewrite !app_nil_r, app_assoc.
  - destruct result as [|x pre _] using rev_ind; [simpl in Hlt; lia|].
    rewrite length_app in Hlen, Hlt; simpl in Hlen, Hlt.
    assert (Hi : index = length pre) by lia.
    rewrite (list_lookup_middle pre [] x index Hi) in Hlk.
    injection Hlk as ->.
    rewrite insert_at_last by exact Hi.
    rewrite !segments_app. unfold segments, lineGroups; simpl.
    now rewrite !app_nil_r.
  - rewrite !segments_app. unfold segments at 2 3.
    rewrite lineGroups_holes. reflexivity.
Qed.

Lemma texts_add_log (result : Result) (index : nat) (log : Segment) :
  length result <= S index ->
  texts (add_log result index log) = String.append (texts result) (log_text log).
Proof.
  intros Hlen. unfold texts. rewrite segments_add_log by exact Hlen.
  rewrite map_app, join_app. simpl. now rewrite append_empty_r.
Qed.

Section Texts.
Variable E : Env.
Variable data : Entry.

Lemma letter_step_length lastLeft c b st letter :
  length (c_result (w_at st)) <= S (c_index (w_at st)) ->
  length (c_result (w_at (letter_step E data lastLeft c b st letter)))
  <= S (c_index (w_at (letter_step E data lastLeft c b st letter))).
Proof.
  intros H.
  apply (letter_step_rows E data lastLeft c b 0 st letter). split; [exact H | lia].
Qed.

Lemma letters_texts lastLeft c b ls : forall st,
  length (c_result (w_at st)) <= S (c_index (w_at st)) ->
  let st' := fold_left (letter_step E data lastLeft c b) ls st in
  length (c_result (w_at st')) <= S (c_index (w_at st')) /\
  String.append (texts (c_result (w_at st'))) (textTmp st')
  = String.append (texts (c_result (w_at st)))
      (String.append (textTmp st) (join ls)).
Proof.
  induction ls as [|letter ls IH]; intros st Hlen; simpl.
  - split; [exact Hlen | now rewrite append_empty_r].
  - destruct (IH (letter_step E data lastLeft c b st letter)) as (Hl & Ht);
      [now apply letter_step_length|].
    split; [exact Hl|]. rewrite Ht. unfold letter_step.
    destruct (Qlt_bool _ _); simpl.
    + now rewrite !append_assoc.
    + rewrite texts_add_log by exact Hlen. simpl. now rewrite !append_assoc.
Qed.

Lemma wrap_word_texts cur word c b :
  length (c_result cur) <= S (c_index cur) ->
  texts (c_result (wrap_word E data cur word c b))
  = String.append (texts (c_result cur)) word.
Proof.
  intros Hlen. unfold wrap_word; simpl.
  match goal with
  | |- context [fold_left ?f (letters word) ?a] =>
      destruct (letters_texts (c_left cur) c b (letters word) a Hlen) as (Hl & Ht)
  end.
  rewrite texts_add_log by exact Hl. simpl. rewrite Ht. simpl.
  now rewrite join_letters.
Qed.

Lemma child_step_texts cur child :
  length (c_result cur) <= S (c_index cur) ->
  texts (c_result (child_step E data cur child))
  = String.append (texts (c_result cur)) (textContent child).
Proof.
  intros Hlen. unfold child_step.
  destruct (Qlt_bool _ _); [now apply wrap_word_texts|]. simpl.
  now rewrite texts_add_log.
Qed.

Lemma children_texts children : forall cur,
  length (c_result cur) <= S (c_index cur) ->
  texts (c_result (fold_left (child_step E data) children cur))
  = String.append (texts (c_result cur)) (join (map textContent children)).
Proof.
  induction children as [|child children IH]; intros cur Hlen; simpl.
  - now rewrite append_empty_r.
  - destruct (child_step_rows E data cur child Hlen) as (Hl & _).
    rewrite IH by lia. rewrite child_step_texts by exact Hlen.
    now rewrite append_assoc.
Qed.

Lemma lines_texts lines : forall cur,
  length (c_result cur) <= c_index cur ->
  texts (c_result (fold_left (line_step E data) lines cur))
  = String.append (texts (c_result cur))
      (join (map textContent (flat_map (tokens E) lines))).
Proof.
  induction lines as [|line lines IH]; intros cur Hlen; simpl.
  - now rewrite append_empty_r.
  - destruct (line_step_rows E data cur line Hlen) as (Hl & _).
    rewrite IH by exact Hl.
    unfold line_step at 1; simpl. rewrite children_texts by lia.
    rewrite map_app, join_app. now rewrite append_assoc.
Qed.
End Texts.

Lemma parse_texts (E : Env) (data : Entry) :
  texts (snd (parse E data)) = tokenTexts E data.
Proof.
  unfold parse, tokenTexts, rawLines; simpl.
  rewrite lines_texts by (simpl; lia). reflexivity.
Qed.

(** ** Characters and their widths *)

Lemma letters_app (s t : string) :
  letters (String.append s t) = letters s ++ letters t.
Proof. induction s as [|c s IH]; simpl; [reflexivity | now rewrite IH]. Qed.

Lemma letters_single (word letter : string) :
  letter ∈ letters word -> letters letter = [letter].
Proof.
  induction word as [|c w IH]; simpl; intros H.
  - inversion H.
  - apply elem_of_cons in H as [-> | H]; [reflexivity | auto].
Qed.

Section Metrics.
Variable E : Env.
Hypothesis measure_additive : forall s t,
  (measureText E (String.append s t) == measureText E s + measureText E t)%Q.

Lemma measure_empty : (measureText E EmptyString == 0)%Q.
Proof.
  pose proof (measure_additive EmptyString EmptyString) as H. simpl in H. lra.
Qed.

Lemma measure_cons c w :
  (measureText E (String c w)
   == measureText E (String c EmptyString) + measureText E w)%Q.
Proof. exact (measure_additive (String c EmptyString) w). Qed.

Section NonNegative.
Hypothesis measure_nonneg : forall c, (0 <= measureText E (String c EmptyString))%Q.
Hypothesis inset_nonneg : (0 <= contentPadding E 3)%Q.

Lemma measure_word_nonneg word : (0 <= measureText E word)%Q.
Proof.
  induction word as [|c w IH].
  - rewrite measure_empty. apply Qle_refl.
  - rewrite measure_cons. specialize (measure_nonneg c). lra.
Qed.

Lemma measure_letter_le word letter :
  letter ∈ letters word -> (measureText E letter <= measureText E word)%Q.
Proof.
  induction word as [|c w IH]; simpl; intros H; [inversion H|].
  rewrite measure_cons.
  apply elem_of_cons in H as [-> | H].
  - pose proof (measure_word_nonneg w). lra.
  - specialize (IH H). specialize (measure_nonneg c). lra.
Qed.

Variable data : Entry.

Lemma letter_step_wide lastLeft c b st letter :
  letters letter = [letter] ->
  wide_inv E st -> wide_inv E (letter_step E data lastLeft c b st letter).
Proof.
  intros Hone (Hall & Hleft & Halone & Hfull). unfold letter_step.
  pose proof (measure_word_nonneg letter) as Hpos.
  destruct (Qlt_bool _ _) eqn:Hfit.
  - apply Qlt_bool_iff in Hfit.
    assert (Hnone : forall l, l ∈ letters (String.append (textTmp st) letter) ->
                              ~ wide E l).
    { intros l Hl Hw. rewrite letters_app, Hone in Hl.
      apply elem_of_app in Hl as [Hl | Hl].
      - specialize (Hfull l Hl Hw). lra.
      - apply list_elem_of_singleton in Hl as ->. unfold wide in Hw. lra. }
    repeat split; simpl.
    + exact Hall.
    + lra.
    + intros l Hl Hw. now destruct (Hnone l Hl).
    + intros l Hl Hw. now destruct (Hnone l Hl).
  - repeat split; simpl.
    + apply add_log_all_logs; [exact Hall | exact Halone].
    + lra.
    + intros l Hl Hw. rewrite Hone in Hl.
      now apply list_elem_of_singleton in Hl as ->.
    + intros l Hl Hw. rewrite Hone in Hl.
      apply list_elem_of_singleton in Hl as ->. unfold wide in Hw. lra.
Qed.

Lemma wrap_word_wide cur word c b :
  all_logs (fun s => wide_alone E (log_text s)) (c_result cur) ->
  (0 <= c_left cur)%Q ->
  let cur' := wrap_word E data cur word c b in
  all_logs (fun s => wide_alone E (log_text s)) (c_result cur') /\
  (0 <= c_left cur')%Q.
Proof.
  intros Hall Hleft. unfold wrap_word; simpl.
  match goal with
  | |- context [fold_left ?f ?l ?a] =>
      pose proof (fold_left_invariant (wide_inv E) f l a) as Hfold;
      set (st := fold_left f l a) in *
  end.
  destruct Hfold as (Hall' & Hleft' & Halone & _).
  - repeat split; simpl; try assumption; intros l Hl; inversion Hl.
  - intros st0 letter Hin. apply letter_step_wide.
    exact (letters_single word letter Hin).
  - split; [|exact Hleft']. now apply add_log_all_logs.
Qed.

Lemma child_step_wide cur child :
  all_logs (fun s => wide_alone E (log_text s)) (c_result cur) /\
    (0 <= c_left cur)%Q ->
  let cur' := child_step E data cur child in
  all_logs (fun s => wide_alone E (log_text s)) (c_result cur') /\
  (0 <= c_left cur')%Q.
Proof.
  intros (Hall & Hleft). unfold child_step.
  destruct (Qlt_bool _ _) eqn:Hover; [now apply wrap_word_wide|].
  apply Qlt_bool_false in Hover. simpl.
  pose proof (measure_word_nonneg (textContent child)) as Hpos.
  split; [|lra].
  apply add_log_all_logs; [exact Hall|]. simpl.
  intros l Hl Hw. apply measure_letter_le in Hl. unfold wide in Hw. lra.
Qed.

Lemma lines_wide lines cur :
  all_logs (fun s => wide_alone E (log_text s)) (c_result cur) /\
    (0 <= c_left cur)%Q ->
  all_logs (fun s => wide_alone E (log_text s))
           (c_result (fold_left (line_step E data) lines cur)).
Proof.
  intros H.
  apply (fold_left_invariant
           (fun cur => all_logs (fun s => wide_alone E (log_text s)) (c_result cur)
                       /\ (0 <= c_left cur)%Q)); [exact H|].
  intros a line _ Ha. unfold line_step; simpl. split; [|exact inset_nonneg].
  apply (fold_left_invariant
           (fun cur => all_logs (fun s => wide_alone E (log_text s)) (c_result cur)
                       /\ (0 <= c_left cur)%Q)); [exact Ha|].
  intros a' child _. apply child_step_wide.
Qed.
End NonNegative.
End Metrics.

(** C5, amended: [parse] can store a segment whose text is empty (it
    flushes [textTmp] before the first character of a wrapped word when that
    character does not fit behind the current offset); no character is
    dropped or moved: the texts of the segments, in order, make up the text
    of the child nodes; and, for a metric that is additive over characters
    and never negative and a left inset that is not negative, a character
    wider than the content width is alone in its segment. *)
Theorem C5_nothing_dropped_wide_alone (E : Env) (data : Entry) :
  (forall s t, (measureText E (String.append s t)
                == measureText E s + measureText E t)%Q) ->
  (forall c, (0 <= measureText E (String c EmptyString))%Q) ->
  (0 <= contentPadding E 3)%Q ->
  texts (snd (parse E data)) = tokenTexts E data /\
  all_logs (fun s => wide_alone E (log_text s)) (snd (parse E data)).
Proof.
  intros Hadd Hpos Hinset. split; [apply parse_texts|].
  unfold parse; simpl.
  apply (lines_wide E Hadd Hpos Hinset). split; [constructor | exact Hinset].
Qed.

(** ** Segments within the content width *)

Section Width.
Variable E : Env.
Variable data : Entry.
Hypothesis measure_additive : forall s t,
  (measureText E (String.append s t) == measureText E s + measureText E t)%Q.

Lemma letter_step_fits lastLeft c b pre st letter :
  (contentPadding E 3 + measureText E letter <= contentWidth E)%Q ->
  wrap_inv E lastLeft pre st ->
  wrap_inv E lastLeft (String.append pre letter)
           (letter_step E data lastLeft c b st letter).
Proof.
  intros Hletter (Hall & Hleft & Hspan & Hpre). unfold letter_step.
  destruct (Qlt_bool _ _) eqn:Hfit.
  - apply Qlt_bool_iff in Hfit.
    split; [|split; [|split]]; simpl.
    + exact Hall.
    + lra.
    + rewrite measure_additive. lra.
    + intros Hnew. now rewrite (Hpre Hnew).
  - split; [|split; [|split]]; simpl.
    + apply add_log_all_logs; [exact Hall|]. unfold fits; simpl. lra.
    + exact Hletter.
    + reflexivity.
    + discriminate.
Qed.

Lemma letters_fits lastLeft c b ls : forall pre st,
  (forall letter, letter ∈ ls ->
     (contentPadding E 3 + measureText E letter <= contentWidth E)%Q) ->
  wrap_inv E lastLeft pre st ->
  wrap_inv E lastLeft (String.append pre (join ls))
           (fold_left (letter_step E data lastLeft c b) ls st).
Proof.
  induction ls as [|letter ls IH]; intros pre st Hls Hinv; simpl.
  - now rewrite append_empty_r.
  - rewrite <- append_assoc. apply IH.
    + intros l Hl. apply Hls. now right.
    + apply letter_step_fits; [apply Hls; left | exact Hinv].
Qed.

Lemma wrap_word_fits cur word c b :
  (forall letter, letter ∈ letters word ->
     (contentPadding E 3 + measureText E letter <= contentWidth E)%Q) ->
  (contentWidth E < c_left cur + measureText E word)%Q ->
  all_logs (fits E) (c_result cur) /\ (c_left cur <= contentWidth E)%Q ->
  let cur' := wrap_word E data cur word c b in
  all_logs (fits E) (c_result cur') /\ (c_left cur' <= contentWidth E)%Q.
Proof.
  intros Hletters Hover (Hall & Hleft). unfold wrap_word; simpl.
  match goal with
  | |- context [fold_left ?f ?l ?a] =>
      pose proof (letters_fits (c_left cur) c b l EmptyString a Hletters) as Hfold;
      set (st := fold_left f l a) in *
  end.
  destruct Hfold as (Hall' & Hleft' & Hspan & Hpre).
  { split; [|split; [|split]]; simpl; try assumption; try reflexivity.
    rewrite (measure_empty E measure_additive). lra. }
  split; [|exact Hleft'].
  apply add_log_all_logs; [exact Hall'|]. unfold fits; simpl.
  destruct (isNewLine st) eqn:Hnew; [lra|].
  rewrite (Hpre eq_refl) in Hspan. simpl in Hspan.
  rewrite join_letters in Hspan. lra.
Qed.

Lemma child_step_fits cur child :
  (forall letter, letter ∈ letters (textContent child) ->
     (contentPadding E 3 + measureText E letter <= contentWidth E)%Q) ->
  all_logs (fits E) (c_result cur) /\ (c_left cur <= contentWidth E)%Q ->
  let cur' := child_step E data cur child in
  all_logs (fits E) (c_result cur') /\ (c_left cur' <= contentWidth E)%Q.
Proof.
  intros Hletters (Hall & Hleft). unfold child_step.
  destruct (Qlt_bool _ _) eqn:Hover.
  - apply Qlt_bool_iff in Hover. now apply wrap_word_fits.
  - apply Qlt_bool_false in Hover. simpl. split; [|exact Hover].
    apply add_log_all_logs; [exact Hall | exact Hover].
Qed.

Lemma lines_fits lines cur :
  (contentPadding E 3 <= contentWidth E)%Q ->
  letters_fit E (flat_map (tokens E) lines) ->
  all_logs (fits E) (c_result cur) /\ (c_left cur <= contentWidth E)%Q ->
  all_logs (fits E) (c_result (fold_left (line_step E data) lines cur)).
Proof.
  intros Hinset Hfit H.
  apply (fold_left_invariant
           (fun cur => all_logs (fits E) (c_result cur)
                       /\ (c_left cur <= contentWidth E)%Q)); [exact H|].
  intros a line Hline Ha. unfold line_step; simpl. split; [|exact Hinset].
  apply (fold_left_invariant
           (fun cur => all_logs (fits E) (c_result cur)
                       /\ (c_left cur <= contentWidth E)%Q)); [exact Ha|].
  intros a' child Hchild. apply child_step_fits.
  intros letter Hletter. apply (Hfit child letter); [|exact Hletter].
  apply list_elem_of_In, in_flat_map. exists line.
  split; apply list_elem_of_In; assumption.
Qed.
End Width.

(** C1, amended: when the text metric is additive over characters, the left
    inset does not exceed the content width, and every character of the
    entry fits in the content width when placed at the left inset
    ([contentPadding[3] + width <= contentWidth]), every segment [parse]
    returns satisfies [left + width <= contentWidth]. *)
Theorem C1_segments_fit (E : Env) (data : Entry) :
  (forall s t, (measureText E (String.append s t)
                == measureText E s + measureText E t)%Q) ->
  (contentPadding E 3 <= contentWidth E)%Q ->
  letters_fit E (flat_map (tokens E) (rawLines E data)) ->
  all_logs (fits E) (snd (parse E data)).
Proof.
  intros Hadd Hinset Hfit. unfold parse; simpl.
  apply (lines_fits E (parse_data E data) Hadd _ _ Hinset Hfit).
  split; [constructor | exact Hinset].
Qed.

(** ** The fixed-pitch environment *)

Lemma length_append (s t : string) :
  String.length (String.append s t) = String.length s + String.length t.
Proof. induction s as [|c s IH]; simpl; [reflexivity | now rewrite IH]. Qed.

Lemma fixedPitch_additive (w : Q) (s t : string) :
  (fixedPitch w (String.append s t) == fixedPitch w s + fixedPitch w t)%Q.
Proof.
  unfold fixedPitch. rewrite length_append, Nat2Z.inj_add, inject_Z_plus. ring.
Qed.

Lemma fixedPitch_letter (w : Q) (word letter : string) :
  letter ∈ letters word -> (fixedPitch w letter == w)%Q.
Proof.
  intros H. apply letters_single in H.
  destruct letter as [|c [|c' rest]]; simpl in H; try discriminate.
  unfold fixedPitch; simpl. ring.
Qed.

Lemma fixedPitch_letters_fit (w h pitch : Q) (nodes : list Node) :
  (contentPadding (demoEnv w h pitch) 3 + pitch
   <= contentWidth (demoEnv w h pitch))%Q ->
  letters_fit (demoEnv w h pitch) nodes.
Proof.
  intros H node letter _ Hletter. simpl.
  rewrite (fixedPitch_letter pitch _ _ Hletter). exact H.
Qed.

Lemma C1_segments_fit_witness :
  let E := demoEnv 130 106 10 in
  let data := {| type := OUTPUT; text := "abcdefghijkl"; replace := None |} in
  all_logs (fits E) (snd (parse E data)).
Proof.
  intros E data. apply (C1_segments_fit E data).
  - exact (fixedPitch_additive 10).
  - vm_compute. discriminate.
  - apply fixedPitch_letters_fit. vm_compute. discriminate.
Defined.

(** C1 as stated fails.  A character 90 wide is not wider than a content
    width of 100, yet behind the left inset of 15 it ends at 105.  And with
    a metric that is not additive the width stored for a wrapped run is
    more than the offsets added up: eight characters measured 87 together
    end at 102. *)
Lemma C1_segment_past_content_width :
  let E := demoEnv 130 106 90 in
  let data := {| type := OUTPUT; text := "a"; replace := None |} in
  let data' := {| type := OUTPUT; text := "abcdefghi"; replace := None |} in
  (contentWidth E == 100)%Q /\
  Forall (fun letter => (measureText E letter <= contentWidth E)%Q)
         (letters (text data)) /\
  map (fun s => (log_text s, left s, width s)) (segments (snd (parse E data)))
    = [(EmptyString, 15%Q, 0%Q); ("a"%string, 15%Q, 90%Q)] /\
  ~ all_logs (fits E) (snd (parse E data)) /\
  Forall (fun letter => (contentPadding kernedEnv 3 + measureText kernedEnv letter
                         <= contentWidth kernedEnv)%Q)
         (letters (text data')) /\
  map (fun s => (log_text s, left s, width s))
      (segments (snd (parse kernedEnv data')))
    = [("abcdefgh"%string, 15%Q, 87%Q); ("i"%string, 15%Q, 10%Q)] /\
  ~ all_logs (fits kernedEnv) (snd (parse kernedEnv data')).
Proof.
  intros E data data'.
  split; [reflexivity|].
  split; [repeat constructor; vm_compute; discriminate|].
  split; [vm_compute; reflexivity|].
  split.
  { intros H. unfold all_logs in H.
    apply Forall_lookup_1 with (i := 1)
      (x := Some [mkLog data 90 15 "a" (Some EmptyString) (Some EmptyString)])
      in H; [|vm_compute; reflexivity].
    inversion H as [|? ? Hbad _]. vm_compute in Hbad. now apply Hbad. }
  split; [repeat constructor; vm_compute; discriminate|].
  split; [vm_compute; reflexivity|].
  intros H. unfold all_logs in H.
  apply Forall_lookup_1 with (i := 0)
    (x := Some [mkLog data' 87 15 "abcdefgh" (Some EmptyString) (Some EmptyString)])
    in H; [|vm_compute; reflexivity].
  inversion H as [|? ? Hbad _]. vm_compute in Hbad. now apply Hbad.
Qed.

Lemma C5_nothing_dropped_wide_alone_witness :
  let E := demoEnv 130 106 200 in
  let data := {| type := OUTPUT; text := "W"; replace := None |} in
  wide E "W" /\
  texts (snd (parse E data)) = tokenTexts E data /\
  all_logs (fun s => wide_alone E (log_text s)) (snd (parse E data)).
Proof.
  intros E data. split; [reflexivity|].
  apply (C5_nothing_dropped_wide_alone E data).
  - exact (fixedPitch_additive 200).
  - intros c. vm_compute. discriminate.
  - vm_compute. discriminate.
Defined.

(** C5 as stated fails: before the character that does not fit at the
    start of its row, [parse] stores a segment with empty text, in a row of
    its own. *)
Lemma C5_empty_segment :
  let E := demoEnv 130 106 200 in
  let data := {| type := OUTPUT; text := "W"; replace := None |} in
  map (map log_text) (lineGroups (snd (parse E data)))
    = [[EmptyString]; ["W"%string]] /\
  Exists (fun s => log_text s = EmptyString) (segments (snd (parse E data))).
Proof.
  split; [vm_compute; reflexivity|].
  apply Exists_cons_hd. reflexivity.
Qed.

(** * Further properties of the renderer *)

(** ** Drawing passes without an eligible cursor *)

Lemma chrome_draws (E : Env) (r : Renderer) :
  Forall (fun e => is_draw e = true) (chrome E r).
Proof. unfold chrome. simpl. repeat constructor. Qed.

Lemma render_not_editable (E : Env) (r : Renderer) :
  renderEditable r = false ->
  this (render E r) = r /\
  trace (render E r) = chrome E r ++ trace (draw_rows E (renderLogs r) 0 r).
Proof.
  intros Hno.
  unfold render, renderContent, andThen, renderBackground, renderTopbar,
    draw, chrome; simpl.
  destruct (outcome (draw_rows E (renderLogs r) 0 r)) eqn:Hrows; simpl.
  - rewrite draw_rows_this. unfold notify. rewrite Hno. simpl.
    now rewrite app_nil_r.
  - now rewrite draw_rows_this.
Qed.

Lemma renderEditable_empty_cache (r : Renderer) :
  cacheLogs r = [] -> renderEditable r = false.
Proof.
  intros H. unfold renderEditable, cacheEditable, lastCacheLog.
  rewrite H. simpl. now rewrite andb_false_r.
Qed.

(** X1 ([clear]): [clear] empties the cache and the window, leaves every
    other field alone, returns, paints only the background and the top bar
    and sends the host nothing; a second [clear] changes nothing more and
    paints the same. *)
Theorem clear_empties (E : Env) (r : Renderer) :
  let run := clear E r in
  this run = set_renderLogs [] (set_cacheLogs [] r) /\
  outcome run = Returned /\
  trace run = chrome E r /\
  Forall (fun e => is_draw e = true) (trace run) /\
  this (clear E (this run)) = this run /\
  trace (clear E (this run)) = trace run.
Proof.
  assert (Hone : forall r0,
            this (clear E r0) = set_renderLogs [] (set_cacheLogs [] r0) /\
            trace (clear E r0) = chrome E r0).
  { intros r0. unfold clear.
    destruct (andThen_modify (set_cacheLogs [])
                (andThen (modify (set_renderLogs [])) (render E)) r0)
      as (-> & -> & _).
    destruct (andThen_modify (set_renderLogs []) (render E) (set_cacheLogs [] r0))
      as (-> & -> & _).
    destruct (render_not_editable E (set_renderLogs [] (set_cacheLogs [] r0)))
      as (-> & ->); [now apply renderEditable_empty_cache|].
    simpl. split; reflexivity. }
  intros run. subst run.
  destruct (Hone r) as (Hthis & Htrace).
  destruct (Hone (this (clear E r))) as (Hthis' & Htrace').
  split; [exact Hthis|]. split; [apply clear_returns|].
  split; [exact Htrace|].
  split; [rewrite Htrace; apply chrome_draws|].
  split.
  - rewrite Hthis', Hthis. reflexivity.
  - rewrite Htrace', Htrace. reflexivity.
Qed.

(** ** The constructor *)

(** X2 ([constructor]): for a pixel ratio other than 0 the constructor
    returns with an empty cache and window, the blink flag off and no
    scroll position; the first thing the host hears is the [size] event,
    whose header is 45, footer 15 and content the canvas height in host
    units less 60; after it only the background and the top bar are
    painted. *)
Theorem construct_reports_size (E : Env) (focus : bool) :
  ~ (pixelRatio E == 0)%Q ->
  let run := construct E focus in
  outcome run = Returned /\
  this run = {| cacheLogs := []; renderLogs := []; scrollHeight := None;
                scrollTop := None; cursor := false; isFocus := focus;
                nextId := 0 |} /\
  exists header content footer,
    trace run = EmitSize header content footer :: chrome E (this run) /\
    (header == 45)%Q /\
    (content == canvasHeight E / pixelRatio E - 60)%Q /\
    (footer == 15)%Q.
Proof.
  intros Hpr run. subst run. unfold construct.
  set (r0 := {| cacheLogs := []; renderLogs := []; scrollHeight := None;
                scrollTop := None; cursor := false; isFocus := focus;
                nextId := 0 |}).
  set (size := EmitSize (contentPadding E 0 / pixelRatio E)
                 (contentHeight E / pixelRatio E)
                 (contentPadding E 2 / pixelRatio E)).
  assert (Hret : outcome (render E r0) = Returned)
    by (apply render_outcome; constructor).
  destruct (render_not_editable E r0) as (Hthis & Htrace);
    [now apply renderEditable_empty_cache|].
  destruct (andThen_run (render E) (modify (set_cursor false)) r0 Hret)
    as (Ht2 & Htr2 & Ho2).
  destruct (andThen_run (draw [size])
              (andThen (render E) (modify (set_cursor false))) r0 eq_refl)
    as (Ht1 & Htr1 & Ho1).
  change (this (draw [size] r0)) with r0 in Ht1, Htr1, Ho1.
  change (trace (draw [size] r0)) with [size] in Htr1.
  rewrite Ho1, Ho2, Ht1, Ht2, Hthis, Htr1, Htr2, Htrace.
  split; [reflexivity|]. split; [reflexivity|].
  exists (contentPadding E 0 / pixelRatio E)%Q,
         (contentHeight E / pixelRatio E)%Q,
         (contentPadding E 2 / pixelRatio E)%Q.
  split; [simpl; reflexivity|].
  unfold contentHeight, contentPadding; simpl.
  repeat split; field; exact Hpr.
Qed.

Lemma construct_reports_size_witness :
  outcome (construct (demoEnv 130 106 10) true) = Returned.
Proof.
  refine (proj1 (construct_reports_size (demoEnv 130 106 10) true _)).
  vm_compute. discriminate.
Defined.

(** ** The blink timer *)

Lemma set_cursor_twice (r : Renderer) :
  set_cursor (negb (negb (cursor r))) (set_cursor (negb (cursor r)) r) = r.
Proof. destruct r; simpl. now rewrite negb_involutive. Qed.

(** X3 ([renderCursor], the timer loop): one firing of the blink timer
    flips the blink flag and touches nothing else; it never throws, sends
    the host nothing and paints at most one rectangle, none when the cursor
    is not eligible; two firings bring the renderer back to where it was. *)
Theorem blink_flips (E : Env) (r : Renderer) :
  let run := blink E r in
  this run = set_cursor (negb (cursor r)) r /\
  outcome run = Returned /\
  Forall (fun e => is_draw e = true) (trace run) /\
  length (trace run) <= 1 /\
  (length (trace run) = 1 -> renderEditable r = true) /\
  this (blink E (this run)) = r.
Proof.
  assert (Hone : forall r0,
            this (blink E r0) = set_cursor (negb (cursor r0)) r0 /\
            outcome (blink E r0) = Returned /\
            Forall (fun e => is_draw e = true) (trace (blink E r0)) /\
            length (trace (blink E r0)) <= 1 /\
            (length (trace (blink E r0)) = 1 -> renderEditable r0 = true)).
  { intros r0. unfold blink.
    destruct (andThen_modify (fun r1 => set_cursor (negb (cursor r1)) r1)
                (renderCursor E) r0) as (-> & -> & ->).
    unfold renderCursor.
    assert (Hsame : renderEditable (set_cursor (negb (cursor r0)) r0)
                    = renderEditable r0) by reflexivity.
    destruct (cursorPos E (set_cursor (negb (cursor r0)) r0)) as [l t].
    rewrite Hsame.
    destruct (renderEditable r0), (negb (Qeq_bool l 0)), (negb (Qeq_bool t 0));
      simpl; repeat split; repeat constructor; intros; discriminate. }
  intros run. subst run.
  destruct (Hone r) as (Hthis & Hout & Hdraw & Hlen & Hone').
  destruct (Hone (this (blink E r))) as (Hthis' & _).
  repeat split; try assumption.
  rewrite Hthis', Hthis. apply set_cursor_twice.
Qed.

Lemma blink_flips_witness :
  let E := demoEnv 130 106 10 in
  let r := this (snd (emit E {| type := INPUT; text := "x"; replace := None |}
                        (this (construct E true)))) in
  length (trace (blink E r)) = 1 /\ renderEditable r = true.
Proof.
  intros E r.
  assert (Hlen : length (trace (blink E r)) = 1) by (vm_compute; reflexivity).
  split; [exact Hlen|].
  exact (proj1 (proj2 (proj2 (proj2 (proj2 (blink_flips E r))))) Hlen).
Defined.

(** ** The window after an append *)

Lemma last_drop {A} (a : list A) (k : nat) :
  k < length a -> last (drop k a) = last a.
Proof.
  intros Hk. rewrite !last_lookup, lookup_drop, length_drop.
  f_equal. lia.
Qed.

(** X4 ([emit], the tail window): when [maxLength] is not negative, the
    window [emit] leaves is a suffix of the cache that ends with the last
    cached row; for a positive [maxLength] it holds the last [maxLength]
    rows, all of them when the cache is shorter; for [maxLength] 0 the
    slice starts at [-0] and the window is the whole cache. *)
Theorem emit_window_is_tail (E : Env) (data : Entry) (r : Renderer) :
  (0 <= maxLength E)%Z ->
  let r' := this (snd (emit E data r)) in
  (exists before, cacheLogs r' = before ++ renderLogs r') /\
  last (renderLogs r') = last (cacheLogs r') /\
  ((0 < maxLength E)%Z ->
   renderLogs r'
     = drop (length (cacheLogs r') - Z.to_nat (maxLength E)) (cacheLogs r') /\
   length (renderLogs r')
     = Nat.min (length (cacheLogs r')) (Z.to_nat (maxLength E))) /\
  (maxLength E = 0%Z -> renderLogs r' = cacheLogs r').
Proof.
  intros Hmax r'. subst r'. unfold emit; cbn [snd].
  rewrite emit_this_renderLogs.
  set (cache := cacheLogs (this (emit_this E data r))).
  unfold slice_from, rel_index.
  destruct (Z.ltb_spec (- maxLength E) 0) as [Hpos|Hzero].
  - replace (Z.to_nat (Z.max (Z.of_nat (length cache) + - maxLength E) 0))
      with (length cache - Z.to_nat (maxLength E)) by lia.
    split; [eexists; symmetry; apply take_drop|].
    split.
    + destruct cache as [|x cache']; [reflexivity|].
      apply last_drop. simpl. lia.
    + split; [|lia]. intros _. split; [reflexivity|].
      rewrite length_drop. lia.
  - assert (Hm : maxLength E = 0%Z) by lia.
    replace (Z.to_nat (Z.min (- maxLength E) (Z.of_nat (length cache))))
      with 0 by lia.
    rewrite drop_0.
    split; [now exists []|]. split; [reflexivity|].
    split; [lia | reflexivity].
Qed.

Lemma emit_window_is_tail_witness :
  let E := demoEnv 130 106 10 in
  let data := {| type := OUTPUT;
                 text := String "a" (String LF (String "b" (String LF "c")));
                 replace := None |} in
  let r' := this (snd (emit E data (this (construct E true)))) in
  maxLength E = 2%Z /\ length (cacheLogs r') = 3 /\
  last (renderLogs r') = last (cacheLogs r').
Proof.
  intros E data r'.
  split; [reflexivity|]. split; [reflexivity|].
  refine (proj1 (proj2 (emit_window_is_tail E data (this (construct E true)) _))).
  vm_compute. discriminate.
Defined.

(** ** Scrolling *)

Lemma scrollIndex_zero (E : Env) : scrollIndex E 0 = 0%Z.
Proof.
  unfold scrollIndex.
  assert (H : (0 * pixelRatio E / (fontSize E + logGap E) == inject_Z 0)%Q)
    by (unfold Qdiv; ring).
  rewrite (Qceiling_comp _ _ H). apply Qceiling_Z.
Qed.

(** X5 ([renderByTop]): with a positive pixel ratio and row height, a
    larger scroll offset never gives a smaller start index; offset 0 gives
    index 0, so that scrolling to the top shows the first [maxLength] rows
    of the cache (all of them when the cache is shorter). *)
Theorem scroll_index_monotone (E : Env) (top1 top2 : Q) (r : Renderer) :
  (0 < pixelRatio E)%Q ->
  (0 < fontSize E + logGap E)%Q ->
  (0 <= maxLength E)%Z ->
  (top1 <= top2)%Q ->
  (scrollIndex E top1 <= scrollIndex E top2)%Z /\
  renderLogs (this (renderByTop E top1 r))
    = slice (cacheLogs r) (scrollIndex E top1) (scrollIndex E top1 + maxLength E) /\
  renderLogs (this (renderByTop E top2 r))
    = slice (cacheLogs r) (scrollIndex E top2) (scrollIndex E top2 + maxLength E) /\
  renderLogs (this (renderByTop E 0 r))
    = take (Z.to_nat (maxLength E)) (cacheLogs r).
Proof.
  intros Hpr Hrow Hmax Hle.
  assert (Hwin : forall top,
            renderLogs (this (renderByTop E top r))
            = slice (cacheLogs r) (scrollIndex E top)
                (scrollIndex E top + maxLength E)).
  { intros top. destruct (renderByTop_run E top r) as (-> & _).
    match goal with
    | |- context [render E ?x] =>
        destruct (render_same_logs E x) as (_ & -> & _)
    end.
    reflexivity. }
  split.
  - unfold scrollIndex. apply Qceiling_resp_le.
    unfold Qdiv. apply Qmult_le_compat_r.
    + apply Qmult_le_compat_r; [exact Hle | now apply Qlt_le_weak].
    + apply Qinv_le_0_compat. now apply Qlt_le_weak.
  - split; [apply Hwin|]. split; [apply Hwin|].
    rewrite Hwin, scrollIndex_zero.
    rewrite (slice_nonneg (cacheLogs r) 0 (maxLength E)) by lia.
    reflexivity.
Qed.

Lemma scroll_index_monotone_witness :
  let E := demoEnv 130 106 10 in
  (scrollIndex E 10 <= scrollIndex E 30)%Z.
Proof.
  intros E.
  refine (proj1 (scroll_index_monotone E 10 30 (this (construct E true)) _ _ _ _)).
  - reflexivity.
  - reflexivity.
  - vm_compute. discriminate.
  - vm_compute. discriminate.
Defined.

(** ** More on the array [parse] returns *)

Lemma parse_data_fields (E : Env) (data : Entry) :
  type (parse_data E data) = type data /\
  replace (parse_data E data) = replace data.
Proof. unfold parse_data. destruct (type data) eqn:H; simpl; auto. Qed.

(** X6 ([parse]): every segment [parse] returns carries the entry's [type]
    and [replace] flag; no row it returns is an empty array; the array
    does not end with a hole, so a non-empty result ends with a row. *)
Theorem parse_result_shape (E : Env) (data : Entry) :
  all_logs (carries data) (snd (parse E data)) /\
  Forall (fun og => og <> Some []) (snd (parse E data)) /\
  (snd (parse E data) = [] \/
   exists g s, last (snd (parse E data)) = Some (Some g) /\ last g = Some s).
Proof.
  destruct (parse_well_formed E data) as (_ & Hgroups & Hlast).
  split; [|split; [exact Hgroups|]].
  - unfold parse; simpl.
    apply (lines_result E (parse_data E data) (all_logs (carries data))).
    + intros result index w l t c b H. apply add_log_all_logs; [exact H|].
      destruct (parse_data_fields E data) as (Hty & Hrep).
      split; simpl; assumption.
    + constructor.
  - destruct Hlast as [Hnil | (g & Hg)]; [now left | right].
    apply last_Some_elem_of in Hg as Hin.
    rewrite Forall_forall in Hgroups. specialize (Hgroups _ Hin).
    destruct (last g) as [s|] eqn:Hs; [eauto|].
    apply last_None in Hs. subst g. contradiction.
Qed.

Section Inset.
Variable E : Env.
Variable data : Entry.
Hypothesis measure_nonneg : forall s, (0 <= measureText E s)%Q.

Lemma letter_step_inside lastLeft c b st letter :
  (contentPadding E 3 <= lastLeft)%Q ->
  all_logs (inside_inset E) (c_result (w_at st)) /\
    (contentPadding E 3 <= c_left (w_at st))%Q ->
  all_logs (inside_inset E)
           (c_result (w_at (letter_step E data lastLeft c b st letter))) /\
  (contentPadding E 3 <= c_left (w_at (letter_step E data lastLeft c b st letter)))%Q.
Proof.
  intros Hlast (Hall & Hleft). unfold letter_step.
  pose proof (measure_nonneg letter) as Hpos.
  destruct (Qlt_bool _ _); simpl; (split; [|lra]); [exact Hall|].
  apply add_log_all_logs; [exact Hall|]. split; simpl.
  - destruct (isNewLine st); [apply Qle_refl | exact Hlast].
  - apply measure_nonneg.
Qed.

Lemma child_step_inside cur child :
  all_logs (inside_inset E) (c_result cur) /\
    (contentPadding E 3 <= c_left cur)%Q ->
  all_logs (inside_inset E) (c_result (child_step E data cur child)) /\
  (contentPadding E 3 <= c_left (child_step E data cur child))%Q.
Proof.
  intros (Hall & Hleft). unfold child_step.
  pose proof (measure_nonneg (textContent child)) as Hpos.
  destruct (Qlt_bool _ _); simpl.
  - unfold wrap_word; simpl.
    match goal with
    | |- context [fold_left ?f ?l ?a] =>
        pose proof (fold_left_invariant
          (fun st => all_logs (inside_inset E) (c_result (w_at st)) /\
                     (contentPadding E 3 <= c_left (w_at st))%Q) f l a) as Hfold;
        set (st := fold_left f l a) in *
    end.
    destruct Hfold as (Hall' & Hleft').
    + split; assumption.
    + intros st0 letter _. now apply letter_step_inside.
    + split; [|exact Hleft'].
      apply add_log_all_logs; [exact Hall'|]. split; simpl.
      * apply Qle_refl.
      * apply measure_nonneg.
  - split; [|lra].
    apply add_log_all_logs; [exact Hall|]. split; simpl; assumption.
Qed.
End Inset.

(** X7 ([parse]): when the text metric is never negative, no segment starts
    left of the left inset and no segment has a negative width. *)
Theorem parse_inside_inset (E : Env) (data : Entry) :
  (forall s, (0 <= measureText E s)%Q) ->
  all_logs (inside_inset E) (snd (parse E data)).
Proof.
  intros Hpos. unfold parse; simpl.
  apply (fold_left_invariant
           (fun cur => all_logs (inside_inset E) (c_result cur) /\
                       (contentPadding E 3 <= c_left cur)%Q)).
  - split; [constructor | apply Qle_refl].
  - intros a line _ Ha. unfold line_step; simpl. split; [|apply Qle_refl].
    apply (fold_left_invariant
             (fun cur => all_logs (inside_inset E) (c_result cur) /\
                         (contentPadding E 3 <= c_left cur)%Q)); [exact Ha|].
    intros a' child _. now apply child_step_inside.
Qed.

Lemma parse_inside_inset_witness :
  let E := demoEnv 130 106 10 in
  let data := {| type := OUTPUT; text := "abcdefghijkl"; replace := None |} in
  all_logs (inside_inset E) (snd (parse E data)).
Proof.
  intros E data. apply (parse_inside_inset E data).
  intros s. unfold E; simpl. unfold fixedPitch.
  apply Qmult_le_0_compat; [discriminate|].
  change 0%Q with (inject_Z 0). rewrite <- Zle_Qle. lia.
Defined.

(** ** Rows start at the left inset *)

Lemma lookup_last_row ty (result : Result) (index : nat) :
  well_formed_result ty result ->
  length result = S index ->
  exists g, result !! index = Some (Some g) /\ g <> [].
Proof.
  intros (_ & Hgroups & Hlast) Hlen.
  destruct Hlast as [-> | (g & Hg)]; [discriminate|].
  exists g. split.
  - rewrite last_lookup, Hlen in Hg. exact Hg.
  - apply last_Some_elem_of in Hg. rewrite Forall_forall in Hgroups.
    intros ->. now apply (Hgroups _ Hg).
Qed.

Lemma add_log_row_inv (E : Env) ty anchor (result : Result) index log :
  log_type log = ty ->
  (length result <= index -> left log = contentPadding E 3) ->
  row_inv E ty anchor result index ->
  length (add_log result index log) = S index /\
  well_formed_result ty (add_log result index log) /\
  starts_at_inset E (add_log result index log).
Proof.
  intros Hty Hleft (Hlen & Hwf & Hstarts & _).
  split; [rewrite length_add_log; lia|].
  split; [now apply add_log_well_formed|].
  unfold starts_at_inset in *.
  destruct (add_log_cases result index log)
    as [(group & Hlk & ->) | [(Hlt & Hlk & ->) | (Hge & ->)]].
  - apply Forall_insert; [exact Hstarts|].
    pose proof (Forall_lookup_1 _ _ _ _ Hstarts Hlk) as Hhead.
    destruct group as [|s group]; simpl in *; [|exact Hhead].
    pose proof (lookup_lt_Some _ _ _ Hlk) as Hlt.
    destruct (lookup_last_row ty result index Hwf) as (g & Hg & Hne); [lia|].
    congruence.
  - destruct (lookup_last_row ty result index Hwf) as (g & Hg & _); [lia|].
    congruence.
  - apply Forall_app. split; [exact Hstarts|].
    apply Forall_app. split; [now apply Forall_replicate|].
    repeat constructor. now apply Hleft.
Qed.

Section RowStarts.
Variable E : Env.
Variable data : Entry.

Lemma letter_step_row lastLeft c b st letter :
  row_inv E (type data) (if isNewLine st then contentPadding E 3 else lastLeft)
          (c_result (w_at st)) (c_index (w_at st)) ->
  let st' := letter_step E data lastLeft c b st letter in
  row_inv E (type data) (if isNewLine st' then contentPadding E 3 else lastLeft)
          (c_result (w_at st')) (c_index (w_at st')).
Proof.
  intros Hinv. unfold letter_step.
  destruct (Qlt_bool _ _); simpl; [exact Hinv|].
  match goal with
  | |- context [add_log ?res ?i ?log] =>
      destruct (add_log_row_inv E (type data) _ res i log eq_refl
                  (proj2 (proj2 (proj2 Hinv))) Hinv) as (Hl & Hwf & Hs)
  end.
  repeat split; try assumption; try apply Hwf. lia.
Qed.

Lemma child_step_row cur child :
  row_inv E (type data) (c_left cur) (c_result cur) (c_index cur) ->
  let cur' := child_step E data cur child in
  length (c_result cur') = S (c_index cur') /\
  well_formed_result (type data) (c_result cur') /\
  starts_at_inset E (c_result cur').
Proof.
  intros Hinv. unfold child_step.
  destruct (Qlt_bool _ _); simpl.
  - unfold wrap_word; simpl.
    match goal with
    | |- context [fold_left ?f ?l ?a] =>
        pose proof (fold_left_invariant
          (fun st => row_inv E (type data)
                       (if isNewLine st then contentPadding E 3 else c_left cur)
                       (c_result (w_at st)) (c_index (w_at st))) f l a) as Hfold;
        set (st := fold_left f l a) in *
    end.
    assert (Hst : row_inv E (type data)
                    (if isNewLine st then contentPadding E 3 else c_left cur)
                    (c_result (w_at st)) (c_index (w_at st))).
    { apply Hfold; [exact Hinv|]. intros st0 letter _. apply letter_step_row. }
    match goal with
    | |- context [add_log ?res ?i ?log] =>
        apply (add_log_row_inv E (type data) _ res i log eq_refl
                 (fun _ => eq_refl) Hst)
    end.
  - match goal with
    | |- context [add_log ?res ?i ?log] =>
        apply (add_log_row_inv E (type data) _ res i log eq_refl
                 (proj2 (proj2 (proj2 Hinv))) Hinv)
    end.
Qed.

Lemma line_step_row cur line :
  row_inv E (type data) (c_left cur) (c_result cur) (c_index cur) ->
  let cur' := line_step E data cur line in
  row_inv E (type data) (c_left cur') (c_result cur') (c_index cur').
Proof.
  intros Hinv. unfold line_step; simpl.
  assert (H : row_inv E (type data)
                (c_left (fold_left (child_step E data) (tokens E line) cur))
                (c_result (fold_left (child_step E data) (tokens E line) cur))
                (c_index (fold_left (child_step E data) (tokens E line) cur))).
  { apply (fold_left_invariant
             (fun cur => row_inv E (type data) (c_left cur) (c_result cur)
                           (c_index cur))); [exact Hinv|].
    intros a child _ Ha.
    destruct (child_step_row a child Ha) as (Hl & Hwf & Hs).
    repeat split; try assumption; try apply Hwf; lia. }
  destruct H as (Hl & Hwf & Hs & _).
  repeat split; try assumption; try apply Hwf. unfold tokens in Hl. lia.
Qed.
End RowStarts.

(** X8 ([parse]): the first segment of every row [parse] returns is at the
    left inset [contentPadding[3]], whatever the metric: a row is opened
    either at the start of a raw line or by a wrap, and both reset the
    offset. *)
Theorem parse_rows_start_at_inset (E : Env) (data : Entry) :
  starts_at_inset E (snd (parse E data)).
Proof.
  unfold parse; simpl.
  pose proof (fold_left_invariant
    (fun cur => row_inv E (type (parse_data E data)) (c_left cur)
                  (c_result cur) (c_index cur))
    (line_step E (parse_data E data))
    (split_lines (text (parse_data E data))) (parse_start E)) as H.
  apply H.
  - split; [simpl; lia|]. split; [|split; [constructor | reflexivity]].
    split; [constructor|]. split; [constructor | now left].
  - intros a line _. apply line_step_row.
Qed.

(** ** Entries without a blank line before a non-blank one *)

Lemma add_log_dense (result : Result) (index : nat) (log : Segment) :
  index <= length result ->
  Forall is_Some result -> Forall is_Some (add_log result index log).
Proof.
  intros Hidx Hall.
  destruct (add_log_cases result index log)
    as [(group & _ & ->) | [(_ & _ & ->) | (Hge & ->)]].
  - apply Forall_insert; [exact Hall | eexists; reflexivity].
  - apply Forall_insert; [exact Hall | eexists; reflexivity].
  - replace (index - length result) with 0 by lia. simpl.
    apply Forall_app. split; [exact Hall|].
    repeat constructor. eexists; reflexivity.
Qed.

Section Dense.
Variable E : Env.
Variable data : Entry.

Lemma letter_step_dense lastLeft c b st letter :
  (c_index (w_at st) <= length (c_result (w_at st)) <= S (c_index (w_at st)) /\
   Forall is_Some (c_result (w_at st))) ->
  let st' := letter_step E data lastLeft c b st letter in
  c_index (w_at st') <= length (c_result (w_at st')) <= S (c_index (w_at st')) /\
  Forall is_Some (c_result (w_at st')).
Proof.
  intros ((Hlo & Hhi) & Hall). unfold letter_step.
  destruct (Qlt_bool _ _); simpl; [auto|].
  rewrite length_add_log. split; [lia|]. now apply add_log_dense.
Qed.

Lemma child_step_dense cur child :
  (c_index cur <= length (c_result cur) <= S (c_index cur) /\
   Forall is_Some (c_result cur)) ->
  let cur' := child_step E data cur child in
  length (c_result cur') = S (c_index cur') /\ Forall is_Some (c_result cur').
Proof.
  intros ((Hlo & Hhi) & Hall). unfold child_step.
  destruct (Qlt_bool _ _); simpl.
  - unfold wrap_word; simpl.
    match goal with
    | |- context [fold_left ?f ?l ?a] =>
        pose proof (fold_left_invariant
          (fun st => c_index (w_at st) <= length (c_result (w_at st))
                       <= S (c_index (w_at st)) /\
                     Forall is_Some (c_result (w_at st))) f l a) as Hfold;
        set (st := fold_left f l a) in *
    end.
    destruct Hfold as ((Hlo' & Hhi') & Hall').
    + simpl. auto.
    + intros st0 letter _. apply letter_step_dense.
    + rewrite length_add_log. split; [lia|]. now apply add_log_dense.
  - rewrite length_add_log. split; [lia|]. now apply add_log_dense.
Qed.

Lemma line_step_dense cur line :
  blank E line = false ->
  length (c_result cur) = c_index cur /\ Forall is_Some (c_result cur) ->
  let cur' := line_step E data cur line in
  length (c_result cur') = c_index cur' /\ Forall is_Some (c_result cur').
Proof.
  intros Hline (Hlen & Hall). unfold line_step, blank, tokens in *; simpl.
  destruct (childNodes E (stripScript E line)) as [|child children];
    [discriminate|]. simpl.
  apply (fold_left_invariant
           (fun cur' => length (c_result cur') = S (c_index cur') /\
                        Forall is_Some (c_result cur'))).
  - apply child_step_dense. split; [lia | exact Hall].
  - intros a child' _ (Hl & Ha). apply child_step_dense. split; [lia | exact Ha].
Qed.

Lemma blank_lines_result lines cur :
  Forall (fun line => blank E line = true) lines ->
  c_result (fold_left (line_step E data) lines cur) = c_result cur.
Proof.
  intros Hblank.
  apply (fold_left_invariant (fun cur' => c_result cur' = c_result cur));
    [reflexivity|].
  intros a line Hin Ha. rewrite Forall_forall in Hblank.
  specialize (Hblank _ Hin). unfold line_step, blank, tokens in *.
  destruct (childNodes E (stripScript E line)); [exact Ha | discriminate].
Qed.
End Dense.

Lemma parse_dense (E : Env) (data : Entry) (front back : list string) :
  rawLines E data = front ++ back ->
  Forall (fun line => blank E line = false) front ->
  Forall (fun line => blank E line = true) back ->
  Forall is_Some (snd (parse E data)).
Proof.
  intros Hlines Hfront Hback. unfold parse; simpl.
  unfold rawLines in Hlines. rewrite Hlines, fold_left_app.
  rewrite blank_lines_result by exact Hback.
  apply (fold_left_invariant
           (fun cur => length (c_result cur) = c_index cur /\
                       Forall is_Some (c_result cur))).
  - split; [reflexivity | constructor].
  - intros a line Hin. apply line_step_dense.
    rewrite Forall_forall in Hfront. now apply Hfront.
Qed.

Lemma Forall_pop {A} (P : A -> Prop) (a : list A) :
  Forall P a -> Forall P (pop a).
Proof.
  unfold pop. induction a as [|x [|y a] IH]; intros H; simpl in *;
    [constructor | constructor |].
  inversion H; subst. constructor; auto.
Qed.

Lemma allocate_dense base (result : Result) :
  Forall is_Some result -> Forall is_Some (allocate base result).
Proof.
  intros H. unfold allocate. apply Forall_lookup. intros i x Hx.
  rewrite list_lookup_imap in Hx.
  destruct (result !! i) as [og|] eqn:Hog; [|discriminate].
  apply (Forall_lookup_1 _ _ _ _ H) in Hog as (g & ->).
  simpl in Hx. injection Hx as <-. eexists; reflexivity.
Qed.

(** X9 ([parse], [emit], [renderContent]): when the blank raw lines of an
    entry all come after its non-blank ones, [parse] returns an array
    without holes; appending such an entry to a cache without [undefined]
    rows returns normally and leaves the cache without [undefined] rows. *)
Theorem emit_returns_without_gap (E : Env) (data : Entry) (r : Renderer)
    (front back : list string) :
  rawLines E data = front ++ back ->
  Forall (fun line => blank E line = false) front ->
  Forall (fun line => blank E line = true) back ->
  Forall is_Some (cacheLogs r) ->
  Forall is_Some (snd (parse E data)) /\
  outcome (snd (emit E data r)) = Returned /\
  Forall is_Some (cacheLogs (this (snd (emit E data r)))).
Proof.
  intros Hlines Hfront Hback Hcache.
  pose proof (parse_dense E data front back Hlines Hfront Hback) as Hparse.
  assert (Hnew : Forall is_Some (cacheLogs (this (snd (emit E data r))))).
  { unfold emit; cbn [snd]. rewrite emit_this_cacheLogs.
    apply Forall_app. split; [|now apply allocate_dense].
    destruct (replace data) as [[|]|]; try exact Hcache. now apply Forall_pop. }
  split; [exact Hparse|]. split; [|exact Hnew].
  unfold emit in *; cbn [snd] in *.
  apply emit_outcome. rewrite emit_this_renderLogs.
  unfold slice_from. now apply Forall_drop.
Qed.

Lemma emit_returns_without_gap_witness :
  let E := demoEnv 130 106 10 in
  let data := {| type := OUTPUT;
                 text := String "a" (String LF (String "b" (String LF EmptyString)));
                 replace := None |} in
  outcome (snd (emit E data (this (construct E true)))) = Returned.
Proof.
  intros E data.
  refine (proj1 (proj2 (emit_returns_without_gap E data (this (construct E true))
                          ["a"; "b"]%string [EmptyString] _ _ _ _))).
  - reflexivity.
  - repeat constructor.
  - repeat constructor.
  - constructor.
Defined.

(** ** What a drawing pass writes *)

Lemma drawn_texts_app (a b : list Effect) :
  drawn_texts (a ++ b) = drawn_texts a ++ drawn_texts b.
Proof. unfold drawn_texts. apply omap_app. Qed.

Lemma drawn_texts_row (E : Env) (i : nat) (g : LineGroup) :
  drawn_texts (flat_map (draw_log E i) (logs g)) = row_texts E i g.
Proof.
  unfold row_texts. induction (logs g) as [|s l IH]; [reflexivity|].
  cbn [flat_map map]. rewrite drawn_texts_app, IH.
  unfold draw_log. destruct (truthy (background s)); reflexivity.
Qed.

Lemma drawn_texts_rows (E : Env) (r : Renderer) rows : forall i,
  Forall is_Some rows ->
  drawn_texts (trace (draw_rows E rows i r))
  = concat (imap (fun j g => row_texts E (i + j) g) (omap id rows)).
Proof.
  induction rows as [|[g|] rows IH]; intros i Hrows; simpl.
  - reflexivity.
  - inversion Hrows; subst.
    unfold andThen; simpl. rewrite drawn_texts_app, drawn_texts_row.
    rewrite IH by assumption. rewrite Nat.add_0_r. f_equal. f_equal.
    apply imap_ext. intros j x _. simpl. f_equal. lia.
  - inversion Hrows as [|? ? [x Hx] ?]. discriminate.
Qed.

Lemma render_trace_returned (E : Env) (r : Renderer) :
  outcome (render E r) = Returned ->
  trace (render E r)
  = chrome E r ++ trace (draw_rows E (renderLogs r) 0 r) ++ trace (notify E r).
Proof.
  intros Hret.
  assert (Hrows : outcome (draw_rows E (renderLogs r) 0 r) = Returned).
  { apply draw_rows_outcome. now apply render_outcome in Hret. }
  clear Hret.
  unfold render, renderContent, andThen, renderBackground, renderTopbar,
    draw, chrome; simpl.
  rewrite Hrows; simpl. rewrite draw_rows_this. reflexivity.
Qed.

(** X10 ([render], [renderTopbar], [renderContent]): a drawing pass over a
    window without [undefined] rows writes the title and then the text of
    every segment of the window exactly once, row after row and in the
    order of the row, at the segment's [left] and at the height of its row
    ([contentPadding[0] + (fontSize + logGap) * i] for row [i]). *)
Theorem render_writes_window (E : Env) (r : Renderer) :
  Forall is_Some (renderLogs r) ->
  drawn_texts (trace (render E r))
  = (title E,
     (canvasWidth E / 2 - measureText E (title E) / 2)%Q,
     (contentPadding E 1 - btnSize E / 2)%Q)
    :: concat (imap (row_texts E) (omap id (renderLogs r))).
Proof.
  intros Hrows.
  rewrite render_trace_returned by now apply render_outcome.
  rewrite !drawn_texts_app, drawn_texts_rows by exact Hrows.
  assert (Hnotify : drawn_texts (trace (notify E r)) = []).
  { rewrite notify_trace. destruct (renderEditable r); reflexivity. }
  rewrite Hnotify, app_nil_r. reflexivity.
Qed.

Lemma render_writes_window_witness :
  let E := demoEnv 130 106 10 in
  let r := this (snd (emit E {| type := OUTPUT; text := "ab"; replace := None |}
                        (this (construct E true)))) in
  map fst (drawn_texts (trace (render E r)))
  = [("term"%string, (180 # 4)%Q); ("ab"%string, 15%Q)].
Proof.
  intros E r.
  rewrite (render_writes_window E r); [vm_compute; reflexivity|].
  repeat constructor. eexists; reflexivity.
Defined.

(** ** Array addresses *)

Lemma lookup_pop {A} (a : list A) (i : nat) (x : A) :
  pop a !! i = Some x -> a !! i = Some x.
Proof.
  unfold pop. revert i. induction a as [|y [|z a] IH]; intros i H; simpl in *;
    try discriminate.
  destruct i as [|i]; [exact H|]. simpl in *. now apply IH.
Qed.

Lemma lookup_allocate base (result : Result) (k : nat) (g : LineGroup) :
  allocate base result !! k = Some (Some g) ->
  gid g = base + k /\ k < length result.
Proof.
  unfold allocate. rewrite list_lookup_imap. intros H.
  destruct (result !! k) as [[segs|]|] eqn:Hk; simpl in H; try discriminate.
  injection H as <-. split; [reflexivity|]. now apply lookup_lt_Some in Hk.
Qed.

Lemma ids_fresh_push (c : list (option LineGroup)) base (result : Result) :
  ids_unique c -> ids_below base c ->
  ids_unique (c ++ allocate base result) /\
  ids_below (base + length result) (c ++ allocate base result).
Proof.
  intros Hu Hb. split.
  - intros i j x y Hi Hj Heq.
    apply lookup_app_Some in Hi as [Hi | (Hil & Hi)];
      apply lookup_app_Some in Hj as [Hj | (Hjl & Hj)].
    + exact (Hu i j x y Hi Hj Heq).
    + apply Hb in Hi. apply lookup_allocate in Hj as (Hj & _). lia.
    + apply Hb in Hj. apply lookup_allocate in Hi as (Hi & _). lia.
    + apply lookup_allocate in Hi as (Hi & _).
      apply lookup_allocate in Hj as (Hj & _). lia.
  - intros i x Hi.
    apply lookup_app_Some in Hi as [Hi | (_ & Hi)].
    + apply Hb in Hi. lia.
    + apply lookup_allocate in Hi as (Hi & Hlt). lia.
Qed.

Lemma ids_fresh_emit_pre (E : Env) (data : Entry) (r : Renderer) :
  ids_fresh r -> ids_fresh (emit_pre E data r).
Proof.
  intros (Hu & Hb). unfold ids_fresh.
  rewrite emit_pre_cacheLogs.
  assert (Hn : nextId (emit_pre E data r)
               = nextId r + length (snd (parse E data))).
  { unfold emit_pre. destruct (replace data) as [[|]|]; reflexivity. }
  rewrite Hn. apply ids_fresh_push.
  - destruct (replace data) as [[|]|]; try exact Hu.
    intros i j x y Hi Hj. apply lookup_pop in Hi, Hj. eauto.
  - destruct (replace data) as [[|]|]; try exact Hb.
    intros i x Hi. apply lookup_pop in Hi. eauto.
Qed.

Lemma ids_fresh_same_logs (r r' : Renderer) :
  same_logs r r' -> ids_fresh r -> ids_fresh r'.
Proof. intros (Hc & _ & _ & Hn & _). unfold ids_fresh. now rewrite Hc, Hn. Qed.

(** The addresses stay consistent under every method. *)
Lemma ids_fresh_kept (E : Env) (data : Entry) (top : Q) (r : Renderer) :
  ids_fresh r ->
  ids_fresh (this (snd (emit E data r))) /\
  ids_fresh (this (renderByTop E top r)) /\
  ids_fresh (this (clear E r)) /\
  ids_fresh (this (blink E r)).
Proof.
  intros Hr. split; [|split; [|split]].
  - unfold emit; cbn [snd]. destruct (emit_this_run E data r) as (-> & _).
    eapply ids_fresh_same_logs; [apply render_same_logs|].
    now apply ids_fresh_emit_pre.
  - destruct (renderByTop_run E top r) as (-> & _).
    eapply ids_fresh_same_logs; [apply render_same_logs | exact Hr].
  - unfold clear.
    destruct (andThen_modify (set_cacheLogs [])
                (andThen (modify (set_renderLogs [])) (render E)) r) as (-> & _).
    destruct (andThen_modify (set_renderLogs []) (render E) (set_cacheLogs [] r))
      as (-> & _).
    eapply ids_fresh_same_logs; [apply render_same_logs|].
    split; intros i; intros; simpl in *; discriminate.
  - unfold blink.
    destruct (andThen_modify (fun r1 => set_cursor (negb (cursor r1)) r1)
                (renderCursor E) r) as (-> & _).
    unfold renderCursor.
    destruct (cursorPos E _) as [l t].
    destruct (_ && _); exact Hr.
Qed.

(** ** The cursor after an Input entry *)

Lemma tail_window_last {A} (a : list A) (m : Z) :
  (0 <= m)%Z -> last (slice_from a (- m)) = last a.
Proof.
  intros Hm. unfold slice_from, rel_index.
  destruct a as [|x a]; [now rewrite drop_nil|].
  apply last_drop. simpl length.
  destruct (Z.ltb_spec (- m) 0); lia.
Qed.

Lemma same_log_refl (x : option (Ref * Segment)) : same_log x x = true.
Proof.
  destruct x as [[[g i] s]|]; simpl; [|reflexivity].
  now rewrite !Nat.eqb_refl.
Qed.

Lemma reports_of_drawing (t : list Effect) :
  Forall (fun e => is_scroll e = false /\ is_cursor e = false) t ->
  cursor_reports t = [] /\ scroll_reports t = [].
Proof.
  induction 1 as [|e t (Hs & Hc) _ (IHc & IHs)]; [split; reflexivity|].
  unfold cursor_reports, scroll_reports in *. simpl.
  destruct e; simpl in *; try discriminate; auto.
Qed.

Lemma cursorPos_same_logs (E : Env) (r r' : Renderer) :
  same_logs r r' -> cursorPos E r' = cursorPos E r.
Proof.
  intros Hsame. unfold cursorPos.
  rewrite (renderEditable_same_logs r r' Hsame).
  destruct Hsame as (_ & Hr & _). unfold lastRenderLog. now rewrite Hr.
Qed.

Lemma emit_input_editable (E : Env) (data : Entry) (r : Renderer) :
  type data = INPUT ->
  snd (parse E data) <> [] ->
  isFocus r = true ->
  (0 <= maxLength E)%Z ->
  exists ref s,
    lastCacheLog (emit_pre E data r) = Some (ref, s) /\
    lastRenderLog (emit_pre E data r) = Some (ref, s) /\
    log_type s = INPUT /\
    renderEditable (emit_pre E data r) = true.
Proof.
  intros Hty Hne Hfocus Hmax.
  assert (Hwin : lastRenderLog (emit_pre E data r) = lastCacheLog (emit_pre E data r)).
  { unfold lastRenderLog, lastCacheLog, lastLog.
    change (renderLogs (emit_pre E data r))
      with (slice_from (cacheLogs (emit_pre E data r)) (- maxLength E)%Z).
    now rewrite tail_window_last. }
  assert (Hf : isFocus (emit_pre E data r) = true).
  { unfold emit_pre. destruct (replace data) as [[|]|]; exact Hfocus. }
  unfold lastCacheLog in *. rewrite emit_pre_cacheLogs in Hwin |- *.
  destruct (lastLog_pushed (type data)
              (match replace data with
               | Some true => pop (cacheLogs r)
               | _ => cacheLogs r
               end) (nextId r) (snd (parse E data)) Hne
              (parse_well_formed E data)) as (ref & s & Hlast & Hs).
  exists ref, s. rewrite Hlast in Hwin.
  split; [exact Hlast|]. split; [exact Hwin|]. split; [congruence|].
  unfold renderEditable, cacheEditable, lastCacheLog.
  rewrite emit_pre_cacheLogs, Hlast, Hwin, Hf, Hs, Hty.
  rewrite same_log_refl. reflexivity.
Qed.

Lemma render_editable_run (E : Env) (r : Renderer) :
  renderEditable r = true ->
  outcome (render E r) = Returned ->
  this (render E r)
  = set_scroll (inject_Z (Z.of_nat (length (cacheLogs r)))
                * (fontSize E + logGap E) / pixelRatio E)
      ((inject_Z (indexOf (cacheLogs r) (lastlogs r) + 1)
        * (fontSize E + logGap E) - contentHeight E) / pixelRatio E) r /\
  cursor_reports (trace (render E r))
  = [((fst (cursorPos E r) / pixelRatio E)%Q, (snd (cursorPos E r) / pixelRatio E)%Q)] /\
  scroll_reports (trace (render E r))
  = [(clamp0 (inject_Z (Z.of_nat (length (cacheLogs r)))
              * (fontSize E + logGap E) / pixelRatio E),
      clamp0 ((inject_Z (indexOf (cacheLogs r) (lastlogs r) + 1)
               * (fontSize E + logGap E) - contentHeight E) / pixelRatio E))].
Proof.
  intros Hed Hret.
  pose proof (render_trace_returned E r Hret) as Htrace.
  destruct (reports_of_drawing _ (draw_rows_trace E (renderLogs r) 0 r))
    as (Hc & Hs).
  split.
  - assert (Hrows : outcome (draw_rows E (renderLogs r) 0 r) = Returned).
    { apply draw_rows_outcome. now apply render_outcome in Hret. }
    unfold render, renderContent, andThen, renderBackground, renderTopbar, draw;
      simpl.
    rewrite Hrows; simpl. rewrite draw_rows_this.
    unfold notify. rewrite Hed. destruct (cursorPos E r). reflexivity.
  - rewrite Htrace, notify_trace, Hed.
    unfold cursor_reports, scroll_reports in *.
    rewrite !omap_app, Hc, Hs. split; reflexivity.
Qed.

(** X11 ([emit], [cacheEditable], [renderEditable], [cursorPos]): after
    appending an Input entry that yields at least one row, with focus and a
    [maxLength] that is not negative, the cursor is eligible: the last
    cached segment is of the entry and is the last of the window, and
    [cursorPos] is 4 device pixels right of its end, at the height of the
    last row of the window.  When the call returns, it has sent exactly one
    [cursor] event, that position in host units. *)
Theorem input_append_shows_cursor (E : Env) (data : Entry) (r : Renderer) :
  type data = INPUT ->
  snd (parse E data) <> [] ->
  isFocus r = true ->
  (0 <= maxLength E)%Z ->
  let run := snd (emit E data r) in
  renderEditable (this run) = true /\
  (exists ref s,
     lastCacheLog (this run) = Some (ref, s) /\
     lastRenderLog (this run) = Some (ref, s) /\
     log_type s = INPUT /\
     cursorPos E (this run)
     = ((left s + width s + pixelRatio E * 4)%Q,
        rowTop E (Z.of_nat (length (renderLogs (this run))) - 1))) /\
  (outcome run = Returned ->
   cursor_reports (trace run)
   = [((fst (cursorPos E (this run)) / pixelRatio E)%Q,
       (snd (cursorPos E (this run)) / pixelRatio E)%Q)]).
Proof.
  intros Hty Hne Hfocus Hmax run. subst run. unfold emit; cbn [snd].
  destruct (emit_this_run E data r) as (Hthis & Htrace & Hout).
  pose proof (render_same_logs E (emit_pre E data r)) as Hsame.
  destruct (emit_input_editable E data r Hty Hne Hfocus Hmax)
    as (ref & s & Hc & Hr & Hs & Hed).
  rewrite Hthis, Htrace, Hout.
  rewrite (renderEditable_same_logs _ _ Hsame), (cursorPos_same_logs E _ _ Hsame).
  split; [exact Hed|]. split.
  - exists ref, s. destruct Hsame as (Hcl & Hrl & _).
    unfold lastCacheLog, lastRenderLog in *. rewrite Hcl, Hrl.
    split; [exact Hc|]. split; [exact Hr|]. split; [exact Hs|].
    unfold cursorPos, lastRenderLog. now rewrite Hed, Hr.
  - intros Hret. now destruct (render_editable_run E _ Hed Hret) as (_ & -> & _).
Qed.

Lemma input_append_shows_cursor_witness :
  let E := demoEnv 130 106 10 in
  let data := {| type := INPUT; text := "x"; replace := None |} in
  renderEditable (this (snd (emit E data (this (construct E true))))) = true.
Proof.
  intros E data.
  refine (proj1 (input_append_shows_cursor E data (this (construct E true))
                   _ _ _ _)).
  - reflexivity.
  - vm_compute. discriminate.
  - reflexivity.
  - vm_compute. discriminate.
Defined.

(** ** The scroll position after an Input entry *)

Lemma indexOf_from_first (a : list (option LineGroup)) (x : option LineGroup) :
  forall (n : nat) (i : Z) (y : option LineGroup),
    (forall k z, k < n -> a !! k = Some z -> same_group z x = false) ->
    a !! n = Some y -> same_group y x = true ->
    indexOf_from a x i = (i + Z.of_nat n)%Z.
Proof.
  induction a as [|z a IH]; intros n i y Hbefore Hn Hy; [discriminate|].
  destruct n as [|n]; simpl in *.
  - injection Hn as ->. rewrite Hy. lia.
  - rewrite (Hbefore 0 z) by (simpl; auto; lia).
    rewrite (IH n (i + 1)%Z y); [lia | | exact Hn | exact Hy].
    intros k z' Hk Hz. apply (Hbefore (S k) z'); [lia | exact Hz].
Qed.

Lemma indexOf_last (a : list (option LineGroup)) (g : LineGroup) :
  ids_unique a -> last a = Some (Some g) ->
  indexOf a (Some g) = (Z.of_nat (length a) - 1)%Z.
Proof.
  intros Hu Hlast. rewrite last_lookup in Hlast.
  assert (Hlen : length a <> 0) by (destruct a; [discriminate | simpl; lia]).
  unfold indexOf.
  rewrite (indexOf_from_first a (Some g) (Nat.pred (length a)) 0 (Some g));
    [lia | | exact Hlast | simpl; apply Nat.eqb_refl].
  intros k [g'|] Hk Hz; simpl; [|reflexivity].
  destruct (Nat.eqb_spec (gid g') (gid g)) as [Heq|]; [|reflexivity].
  specialize (Hu k (Nat.pred (length a)) g' g Hz Hlast Heq). lia.
Qed.

(** X12 ([renderContent], the scroll report): in a renderer whose rows
    are distinct arrays, appending an Input entry that yields at least one
    row, with focus and a [maxLength] that is not negative, puts the window
    at the end of the cache: when the call returns, [scrollHeight] is the
    number of cached rows times the row height and [scrollTop] is that
    less the content height, both in host units, and the one [scroll] event
    sent carries them clamped at 0. *)
Theorem input_append_scrolls_to_bottom (E : Env) (data : Entry) (r : Renderer) :
  ids_fresh r ->
  type data = INPUT ->
  snd (parse E data) <> [] ->
  isFocus r = true ->
  (0 <= maxLength E)%Z ->
  let run := snd (emit E data r) in
  let total := (inject_Z (Z.of_nat (length (cacheLogs (this run))))
                * (fontSize E + logGap E))%Q in
  outcome run = Returned ->
  scrollHeight (this run) = Some (total / pixelRatio E)%Q /\
  scrollTop (this run) = Some ((total - contentHeight E) / pixelRatio E)%Q /\
  scroll_reports (trace run)
  = [(clamp0 (total / pixelRatio E),
      clamp0 ((total - contentHeight E) / pixelRatio E))].
Proof.
  intros Hids Hty Hne Hfocus Hmax run total. subst run total.
  unfold emit; cbn [snd].
  destruct (emit_this_run E data r) as (Hthis & Htrace & Hout).
  rewrite Hthis, Htrace, Hout. intros Hret.
  destruct (emit_input_editable E data r Hty Hne Hfocus Hmax)
    as (ref & s & Hc & Hr & Hs & Hed).
  destruct (render_editable_run E _ Hed Hret) as (Hrun & _ & Hscroll).
  destruct (render_same_logs E (emit_pre E data r)) as (Hcl & _).
  rewrite Hcl, Hscroll, Hrun. cbn [scrollHeight scrollTop set_scroll].
  assert (Hidx : (indexOf (cacheLogs (emit_pre E data r))
                    (lastlogs (emit_pre E data r)) + 1)%Z
                 = Z.of_nat (length (cacheLogs (emit_pre E data r)))).
  { unfold lastCacheLog, lastRenderLog, lastLog in Hc, Hr. unfold lastlogs.
    destruct (last (renderLogs (emit_pre E data r))) as [[gw|]|] eqn:Hw;
      try discriminate.
    destruct (last (cacheLogs (emit_pre E data r))) as [[gc|]|] eqn:Hl;
      try discriminate.
    assert (Hsame : last (renderLogs (emit_pre E data r))
                    = last (cacheLogs (emit_pre E data r))).
    { change (renderLogs (emit_pre E data r))
        with (slice_from (cacheLogs (emit_pre E data r)) (- maxLength E)%Z).
      now rewrite tail_window_last. }
    rewrite Hw, Hl in Hsame. injection Hsame as ->.
    rewrite (indexOf_last _ gc (proj1 (ids_fresh_emit_pre E data r Hids)) Hl).
    lia. }
  rewrite Hidx. repeat split.
Qed.

Lemma input_append_scrolls_to_bottom_witness :
  let E := demoEnv 130 106 10 in
  let data := {| type := INPUT; text := "x"; replace := None |} in
  let run := snd (emit E data (this (construct E true))) in
  scrollHeight (this run) = Some ((inject_Z 1 * (fontSize E + logGap E)) / pixelRatio E)%Q.
Proof.
  intros E data run.
  refine (proj1 (input_append_scrolls_to_bottom E data (this (construct E true))
                   _ _ _ _ _ _)).
  - split; intros i; intros; simpl in *; discriminate.
  - reflexivity.
  - vm_compute. discriminate.
  - reflexivity.
  - vm_compute. discriminate.
  - vm_compute. reflexivity.
Defined.

(** ** Scrolling the input line out of the window *)

Lemma lastLog_lookup (a : list (option LineGroup)) (n k : nat) (s : Segment) :
  lastLog a = Some ((n, k), s) ->
  exists g, a !! Nat.pred (length a) = Some (Some g) /\ gid g = n.
Proof.
  unfold lastLog. rewrite last_lookup.
  destruct (a !! Nat.pred (length a)) as [[g|]|]; try discriminate.
  destruct (last (logs g)); [|discriminate].
  intros [= <- _ _]. eauto.
Qed.

Lemma reports_not_editable (E : Env) (r : Renderer) :
  renderEditable r = false ->
  this (render E r) = r /\
  cursor_reports (trace (render E r)) = [] /\
  scroll_reports (trace (render E r)) = [].
Proof.
  intros Hno. destruct (render_not_editable E r Hno) as (Hthis & Htrace).
  destruct (reports_of_drawing _ (draw_rows_trace E (renderLogs r) 0 r))
    as (Hc & Hs).
  split; [exact Hthis|]. rewrite Htrace.
  unfold cursor_reports, scroll_reports in *.
  rewrite !omap_app, Hc, Hs. split; reflexivity.
Qed.

(** X13 ([renderByTop], [renderEditable]): in a renderer whose rows are
    distinct arrays, a scroll request whose window starts at an index that
    is not negative and ends before the last cached row leaves the cursor
    not eligible, even with focus on an input line: the call changes
    nothing but the window, sends neither a [cursor] nor a [scroll] event,
    and the blink timer paints nothing. *)
Theorem scrolled_away_hides_cursor (E : Env) (top : Q) (r : Renderer) :
  ids_unique (cacheLogs r) ->
  (0 <= scrollIndex E top)%Z ->
  (0 <= maxLength E)%Z ->
  (scrollIndex E top + maxLength E < Z.of_nat (length (cacheLogs r)))%Z ->
  let run := renderByTop E top r in
  renderEditable (this run) = false /\
  this run
  = set_renderLogs
      (take (Z.to_nat (maxLength E)) (drop (Z.to_nat (scrollIndex E top))
                                        (cacheLogs r))) r /\
  cursor_reports (trace run) = [] /\
  scroll_reports (trace run) = [] /\
  trace (renderCursor E (this run)) = [].
Proof.
  intros Hu Hstart Hmax Hend run. subst run.
  destruct (renderByTop_run E top r) as (Hthis & Htrace & _).
  cbv zeta in Hthis, Htrace. fold (scrollIndex E top) in Hthis, Htrace.
  rewrite (slice_nonneg (cacheLogs r) _ _ Hstart Hmax) in Hthis, Htrace.
  set (window := take (Z.to_nat (maxLength E))
                   (drop (Z.to_nat (scrollIndex E top)) (cacheLogs r))) in *.
  assert (Hno : renderEditable (set_renderLogs window r) = false).
  { unfold renderEditable.
    destruct (cacheEditable (set_renderLogs window r)) eqn:Hce; [|reflexivity].
    unfold cacheEditable, lastCacheLog, lastRenderLog in *; simpl in *.
    destruct (lastLog (cacheLogs r)) as [[[n1 k1] s1]|] eqn:Hc;
      [|now rewrite andb_false_r in Hce].
    destruct (lastLog window) as [[[n2 k2] s2]|] eqn:Hw; [|reflexivity].
    apply lastLog_lookup in Hc as (gc & Hgc & <-).
    apply lastLog_lookup in Hw as (gw & Hgw & <-).
    apply lookup_lt_Some in Hgw as Hlt.
    subst window. rewrite length_take, length_drop in Hlt, Hgw.
    rewrite lookup_take_lt, lookup_drop in Hgw by lia.
    simpl.
    destruct (Nat.eqb_spec (gid gc) (gid gw)) as [Heq|]; [|reflexivity].
    specialize (Hu _ _ _ _ Hgc Hgw Heq). lia. }
  destruct (reports_not_editable E _ Hno) as (Hr & Hc & Hs).
  rewrite Hthis, Htrace, Hr, Hc, Hs.
  repeat split; try assumption.
  unfold renderCursor, cursorPos. now rewrite Hno.
Qed.

Lemma scrolled_away_hides_cursor_witness :
  let E := demoEnv 130 106 10 in
  let data := {| type := INPUT;
                 text := String "a" (String LF (String "b" (String LF "c")));
                 replace := None |} in
  let r := this (snd (emit E data (this (construct E true)))) in
  renderEditable r = true /\
  renderEditable (this (renderByTop E 0 r)) = false.
Proof.
  intros E data r. split; [vm_compute; reflexivity|].
  refine (proj1 (scrolled_away_hides_cursor E 0 r _ _ _ _)).
  - apply (ids_fresh_kept E data 0 (this (construct E true))).
    split; intros i; intros; simpl in *; discriminate.
  - vm_compute. discriminate.
  - vm_compute. discriminate.
  - vm_compute. reflexivity.
Defined.

(** ** Replacing after a wrapped entry *)

Lemma emit_this_nextId (E : Env) (data : Entry) (r : Renderer) :
  nextId (this (emit_this E data r)) = nextId r + length (snd (parse E data)).
Proof.
  destruct (emit_this_run E data r) as (-> & _).
  destruct (render_same_logs E (emit_pre E data r)) as (_ & _ & _ & -> & _).
  unfold emit_pre. destruct (replace data) as [[|]|]; reflexivity.
Qed.

(** X14 ([emit] after [emit]): [replace] removes one row, not one entry.
    After an entry [e1] that yields at least one row, appending [e2] with
    [replace: true] keeps what was cached before [e1] and every row of [e1]
    but the last, and puts the rows of [e2] behind them; the rows of [e1]
    are all gone only when [e1] had a single row. *)
Theorem replace_pops_last_row_only (E : Env) (r : Renderer) (e1 e2 : Entry) :
  snd (parse E e1) <> [] ->
  replace e1 <> Some true ->
  replace e2 = Some true ->
  let r1 := this (snd (emit E e1 r)) in
  let r2 := this (snd (emit E e2 r1)) in
  cacheLogs r2
  = cacheLogs r
    ++ pop (allocate (nextId r) (snd (parse E e1)))
    ++ allocate (nextId r + length (snd (parse E e1))) (snd (parse E e2)) /\
  length (cacheLogs r2)
  = length (cacheLogs r) + Nat.pred (length (snd (parse E e1)))
    + length (snd (parse E e2)) /\
  (length (snd (parse E e1)) = 1 ->
   cacheLogs r2
   = cacheLogs r ++ allocate (nextId r + 1) (snd (parse E e2))).
Proof.
  intros Hne Hno Hrep r1 r2. subst r1 r2. unfold emit; cbn [snd].
  assert (Hcache : cacheLogs (this (emit_this E e2 (this (emit_this E e1 r))))
                   = cacheLogs r
                     ++ pop (allocate (nextId r) (snd (parse E e1)))
                     ++ allocate (nextId r + length (snd (parse E e1)))
                          (snd (parse E e2))).
  { rewrite emit_this_cacheLogs, Hrep, emit_this_nextId, emit_this_cacheLogs.
    assert (Hkeep : match replace e1 with
                    | Some true => pop (cacheLogs r)
                    | _ => cacheLogs r
                    end = cacheLogs r)
      by (destruct (replace e1) as [[|]|]; [contradiction | reflexivity..]).
    rewrite Hkeep. unfold pop at 1.
    rewrite removelast_app, <- app_assoc; [reflexivity|].
    intros Hnil. apply (f_equal length) in Hnil.
    rewrite length_allocate in Hnil. destruct (snd (parse E e1));
      [contradiction | discriminate]. }
  split; [exact Hcache|]. split.
  - rewrite Hcache, !length_app, length_pop, !length_allocate. lia.
  - intros Hone. rewrite Hcache, Hone.
    destruct (snd (parse E e1)) as [|og [|? ?]]; try discriminate.
    reflexivity.
Qed.

Lemma replace_pops_last_row_only_witness :
  let E := demoEnv 130 106 10 in
  let e1 := {| type := INPUT; text := "abcdefghijkl"; replace := None |} in
  let e2 := {| type := INPUT; text := "a"; replace := Some true |} in
  let r := this (construct E true) in
  length (snd (parse E e1)) = 2 /\
  length (cacheLogs (this (snd (emit E e2 (this (snd (emit E e1 r))))))) = 2.
Proof.
  intros E e1 e2 r. split; [vm_compute; reflexivity|].
  refine (proj1 (proj2 (replace_pops_last_row_only E r e1 e2 _ _ _))).
  - vm_compute. discriminate.
  - discriminate.
  - reflexivity.
Defined.
